(** * Wheel of names: a shallow embedding of [script.js]

    Numbers of the script are modelled with exact rational arithmetic
    ([Q]); [Math.floor] is [Qfloor], the JavaScript remainder [%] is
    [js_rem] (truncated division, result with the sign of the dividend).
    Strings are Stdlib [string]s over ASCII. The canvas drawing
    ([drawWheel], [wrapText]) and the audio cues only read the state and
    are left out of the model. *)

From Stdlib Require Import ZArith QArith Qround Lqa Lia List String Ascii Bool.
Import ListNotations.

Open Scope Q_scope.

(** ** Arithmetic of the script *)

(** [Math.trunc]: rounds toward zero. *)
Definition Qtrunc (x : Q) : Z :=
  if Qle_bool 0 x then Qfloor x else (- Qfloor (- x))%Z.

(** JavaScript [x % y]: [x - y * trunc (x / y)]. *)
Definition js_rem (x y : Q) : Q := x - y * inject_Z (Qtrunc (x / y)).

(** [Math.min(1, x)]. *)
Definition min1 (x : Q) : Q := if Qle_bool 1 x then 1 else x.

(** [easeOutCubic(t) = 1 - Math.pow(1 - t, 3)]. *)
Definition easeOutCubic (t : Q) : Q := 1 - (1 - t) ^ 3.

Definition Qnat (n : nat) : Q := inject_Z (Z.of_nat n).

(** ** The target rotation computed by [spin] (lines 146-159) *)

(** [anglePer = 360 / segCount] *)
Definition anglePer (segCount : nat) : Q := 360 / Qnat segCount.

(** [targetMidAngle = targetIndex * anglePer + anglePer / 2 - 90] *)
Definition targetMidAngle (segCount : nat) (targetIndex : Z) : Q :=
  inject_Z targetIndex * anglePer segCount + anglePer segCount / 2 - 90.

(** [finalRotation = fullRot * 360 + targetMidAngle] *)
Definition finalRotation (segCount : nat) (targetIndex fullRot : Z) : Q :=
  inject_Z fullRot * 360 + targetMidAngle segCount targetIndex.

(** [endRotation = rotation + finalRotation] *)
Definition endRotation (rotation : Q) (segCount : nat) (targetIndex fullRot : Z) : Q :=
  rotation + finalRotation segCount targetIndex fullRot.

(** ** The winner index computed by [finishSpin] (lines 191-200) *)

Definition pointerAngle : Q := 270.

(** [Math.floor(((360 + pointerAngle - rotation % 360) % 360) / (360 / segCount))].
    With [segCount = 0] the JavaScript divisor is [Infinity] and the
    quotient [0]; [Q] divides by [0] to [0]: both give index [0]. *)
Definition finish_index (rotation : Q) (segCount : nat) : Z :=
  let normalizedRotation := js_rem rotation 360 in
  Qfloor (js_rem (360 + pointerAngle - normalizedRotation) 360 / (360 / Qnat segCount)).

(** ** Name list input (lines 6, 217-221) *)

Definition defaultNames : list string :=
  ["Alice"; "Bob"; "Charlie"; "Diana"; "Eve"; "Frank"; "Grace"; "Heidi"]%string.

(** ASCII part of ECMAScript [WhiteSpace] and [LineTerminator]:
    tab, line feed, vertical tab, form feed, carriage return, space. *)
Definition is_js_space (c : ascii) : bool :=
  match nat_of_ascii c with
  | 9%nat | 10%nat | 11%nat | 12%nat | 13%nat | 32%nat => true
  | _ => false
  end.

Fixpoint drop_spaces (l : list ascii) : list ascii :=
  match l with
  | [] => []
  | c :: l' => if is_js_space c then drop_spaces l' else l
  end.

(** [String.prototype.trim] *)
Definition trim (s : string) : string :=
  string_of_list_ascii (rev (drop_spaces (rev (drop_spaces (list_ascii_of_string s))))).

(** [s.split(',')]: an empty string splits into [[""]]. *)
Fixpoint split_comma (s : string) : list string :=
  match s with
  | EmptyString => [EmptyString]
  | String c rest =>
      if Ascii.eqb c ","%char then EmptyString :: split_comma rest
      else match split_comma rest with
           | [] => [String c EmptyString]
           | w :: ws => String c w :: ws
           end
  end.

(** [raw.split(',').map(s => s.trim()).filter(Boolean)] *)
Definition parse_names (raw : string) : list string :=
  filter (fun s => negb (String.eqb s EmptyString)) (map trim (split_comma raw)).

(** ** Program state (lines 17-19, 22-25) *)

(** The callback scheduled with [requestAnimationFrame] closes over these
    constants of one [spin] call. *)
Record session := mkSession {
  s_targetIndex : Z;
  s_duration : Q;
  s_start : Q;
  s_startRotation : Q;
  s_endRotation : Q
}.

Record state := mkState {
  names : list string;
  rotation : Q;
  spinning : bool;
  spinBtn_disabled : bool;
  updateBtn_disabled : bool;
  resultText : string;
  (** the pending animation frame callback, if any *)
  animation : option session
}.

Definition set_rotation (st : state) (r : Q) : state :=
  mkState (names st) r (spinning st) (spinBtn_disabled st)
          (updateBtn_disabled st) (resultText st) (animation st).

Definition set_animation (st : state) (a : option session) : state :=
  mkState (names st) (rotation st) (spinning st) (spinBtn_disabled st)
          (updateBtn_disabled st) (resultText st) a.

(** The initial text of [resultText] comes from the page markup. *)
Definition initialResultText : string := EmptyString.

Definition init : state :=
  mkState defaultNames 0 false false false initialResultText None.

(** ** [finishSpin] (lines 182-208) *)

(** [names[index] || '—'] *)
Definition name_or_dash (l : list string) (index : Z) : string :=
  if (index <? 0)%Z then "—"%string
  else match nth_error l (Z.to_nat index) with
       | Some s => if String.eqb s EmptyString then "—"%string else s
       | None => "—"%string
       end.

Definition finishSpin (st : state) (winIndex : Z) : state :=
  let segCount := List.length (names st) in
  let index := finish_index (rotation st) segCount in
  let winner := name_or_dash (names st) index in
  mkState (names st) (rotation st) false false false
          ("Winner: " ++ winner)%string (animation st).

(** ** [animate] (lines 162-172): one animation frame at time [now] *)

Definition frame_t (s : session) (now : Q) : Q :=
  min1 ((now - s_start s) / s_duration s).

Definition frame_rotation (s : session) (now : Q) : Q :=
  s_startRotation s
  + (s_endRotation s - s_startRotation s) * easeOutCubic (frame_t s now).

Definition animate (st : state) (now : Q) : state :=
  match animation st with
  | None => st
  | Some s =>
      let st1 := set_rotation st (frame_rotation s now) in
      if Qle_bool 1 (frame_t s now)
      then finishSpin (set_animation st1 None) (s_targetIndex s)
      else st1
  end.

(** ** [spin] (lines 135-175)

    [rnd1], [rnd2], [rnd3] are the three values of [Math.random()] in the
    order the code draws them; [now] is [performance.now()]. *)
Definition spin (st : state) (rnd1 rnd2 rnd3 now : Q) : state :=
  if spinning st || (List.length (names st) =? 0)%nat then st
  else
    let segCount := List.length (names st) in
    let targetIndex := Qfloor (rnd1 * Qnat segCount) in
    let fullRot := (4 + Qfloor (rnd2 * 3))%Z in
    let duration := 4200 + inject_Z (Qfloor (rnd3 * 1200)) in
    let startRotation := js_rem (rotation st) 360 in
    let endRot := endRotation (rotation st) segCount targetIndex fullRot in
    mkState (names st) (rotation st) true true true "Spinning..."%string
            (Some (mkSession targetIndex duration now startRotation endRot)).

(** ** The update button handler (lines 216-226) *)

Definition updateClick (st : state) (input : string) : state :=
  let raw := trim input in
  if String.eqb raw EmptyString then st
  else
    let arr := parse_names raw in
    let names' := match arr with [] => defaultNames | _ => arr end in
    mkState names' 0 (spinning st) (spinBtn_disabled st) (updateBtn_disabled st)
            "Winner: —"%string (animation st).

(** The animation session of the first spin from [init] when every
    [Math.random()] returns 0 and [performance.now()] returns 0. *)
Definition first_session : session :=
  mkSession (Qfloor (0 * Qnat 8)) (4200 + inject_Z (Qfloor (0 * 1200))) 0
    (js_rem 0 360) (endRotation 0 8 (Qfloor (0 * Qnat 8)) (4 + Qfloor (0 * 3))).

(** ** Reachable states

    Updates are allowed in every state: the handler can be invoked while
    the button is disabled, so this over-approximates the browser. *)
Inductive reachable : state -> Prop :=
| reach_init : reachable init
| reach_spin st rnd1 rnd2 rnd3 now :
    reachable st ->
    0 <= rnd1 -> rnd1 < 1 -> 0 <= rnd2 -> rnd2 < 1 -> 0 <= rnd3 -> rnd3 < 1 ->
    reachable (spin st rnd1 rnd2 rnd3 now)
| reach_frame st now : reachable st -> reachable (animate st now)
| reach_update st input : reachable st -> reachable (updateClick st input).

(** ** Invariant of the reachable states *)

Definition session_ok (s : session) : Prop :=
  s_startRotation s <= s_endRotation s /\ 0 <= s_endRotation s /\ 0 < s_duration s.

Definition Inv (st : state) : Prop :=
  names st <> nil /\
  Forall (fun w => w <> EmptyString) (names st) /\
  (spinning st = false <-> animation st = None) /\
  (animation st = None -> 0 <= rotation st) /\
  (forall s, animation st = Some s -> session_ok s).

(** ** Splitting and joining strings *)

(** [s.split(sep)] for a one-character separator. *)
Fixpoint split_on (sep : ascii) (s : string) : list string :=
  match s with
  | EmptyString => [EmptyString]
  | String c rest =>
      if Ascii.eqb c sep then EmptyString :: split_on sep rest
      else match split_on sep rest with
           | [] => [String c EmptyString]
           | w :: ws => String c w :: ws
           end
  end.

(** [arr.join(sep)] is Stdlib's [String.concat sep arr]. The input field is
    filled with [names.join(', ')] at load time (line 28). *)
Definition initialInput : string := String.concat ", " defaultNames.

Fixpoint contains_char (c : ascii) (s : string) : bool :=
  match s with
  | EmptyString => false
  | String d rest => Ascii.eqb d c || contains_char c rest
  end.

(** A name as [parse_names] produces it: non-empty, without a comma, and
    without surrounding whitespace. *)
Definition well_formed_name (w : string) : Prop :=
  w <> EmptyString /\ contains_char ","%char w = false /\ trim w = w.

(** ** [wrapText] (lines 99-118): slice labels *)

Section WrapText.

(** [context.measureText(s).width] for the font of the drawing context. *)
Variable measureText : string -> Q.

(** The [for] loop of [wrapText] from the word at index [n] on, with the
    current [line] and [lineY], followed by the [fillText] after the loop.
    The result lists the calls [fillText(text, x, y)] in order. *)
Fixpoint wrap_loop (x maxWidth lineHeight : Q) (words : list string) (n : nat)
  (line : string) (lineY : Q) : list (string * Q * Q) :=
  match words with
  | [] => [(trim line, x, lineY)]
  | w :: words' =>
      let testLine := ((line ++ w) ++ " ")%string in
      if negb (Qle_bool (measureText testLine) maxWidth) && (0 <? n)%nat then
        (trim line, x, lineY)
          :: wrap_loop x maxWidth lineHeight words' (S n) (w ++ " ")%string (lineY + lineHeight)
      else wrap_loop x maxWidth lineHeight words' (S n) testLine lineY
  end.

Definition wrapText (text : string) (x y maxWidth lineHeight : Q) : list (string * Q * Q) :=
  wrap_loop x maxWidth lineHeight (split_on " "%char text) 0 EmptyString y.

(** The value of [line] after the words [g] have been appended to [''] one
    by one as [line + word + ' ']. *)
Definition line_of_words (g : list string) : string :=
  fold_left (fun line w => ((line ++ w) ++ " ")%string) g EmptyString.

(** Every prefix of two or more words of [g] passes the width test. *)
Definition line_fits (maxWidth : Q) (g : list string) : Prop :=
  forall k, (2 <= k <= List.length g)%nat ->
            measureText (line_of_words (firstn k g)) <= maxWidth.

(** Between two consecutive lines, adding the first word of the next one to
    the previous one fails the width test. *)
Fixpoint breaks_forced (maxWidth : Q) (G : list (list string)) : Prop :=
  match G with
  | [] => True
  | g1 :: G' =>
      match G' with
      | [] => True
      | g2 :: _ =>
          maxWidth < measureText (line_of_words (g1 ++ firstn 1 g2))
          /\ breaks_forced maxWidth G'
      end
  end.

End WrapText.

(** A word without whitespace, as [trim] sees it. *)
Definition plain_word (w : string) : Prop :=
  w <> EmptyString /\ Forall (fun c => is_js_space c = false) (list_ascii_of_string w).

(** ** [drawWheel] (lines 42-92): the canvas calls *)

(** A call on the 2D context [ctx]. Every angle the code passes is [Math.PI]
    times a rational number, and an angle is represented by that number
    (so [Rotate q] is [ctx.rotate(q * Math.PI)]). [Font n] is
    [ctx.font = `${n}px system-ui, sans-serif`]. *)
Inductive canvas_cmd :=
| ClearRect (x y w h : Q)
| Save
| Restore
| Translate (x y : Q)
| Rotate (a : Q)
| BeginPath
| MoveTo (x y : Q)
| LineTo (x y : Q)
| Arc (x y r a0 a1 : Q)
| ClosePath
| FillStyle (c : string)
| StrokeStyle (c : string)
| LineWidth (w : Q)
| Fill
| Stroke
| Font (px : Z)
| TextAlign (a : string)
| TextBaseline (b : string)
| FillText (s : string) (x y : Q).

Section DrawWheel.

(** [canvas.width] (line 11) *)
Variable size : Q.
(** [Math.cos] and [Math.sin] at the angle [q * Math.PI] *)
Variables cosPi sinPi : Q -> Q.
(** [ctx.measureText(s).width] in the label font *)
Variable measureText : string -> Q.

Definition cx : Q := size / 2.
Definition cy : Q := size / 2.
Definition radius : Q := size / 2 - 6.

(** One iteration of the [for] loop of [drawWheel] (lines 52-81). [names[i]]
    out of range is [undefined], and [wrapText] then throws a [TypeError] on
    [text.split]: the result is [None]. *)
Definition slice_cmds (names : list string) (anglePer : Q) (i : nat) : option (list canvas_cmd) :=
  let start := Qnat i * anglePer in
  let end_ := start + anglePer in
  match nth_error names i with
  | None => None
  | Some label =>
      Some ([BeginPath; MoveTo 0 0; Arc 0 0 radius start end_; ClosePath;
             FillStyle (if (i mod 2 =? 0)%nat then "#EFB83A" else "#33D7FF"); Fill;
             BeginPath; MoveTo 0 0; LineTo (radius * cosPi start) (radius * sinPi start);
             StrokeStyle "#fff"; LineWidth 2; Stroke;
             Save; Rotate (start + anglePer / 2); Translate (radius * (6#10)) 0; Rotate (1#2);
             FillStyle "#122049"; Font (Z.max 12 (Qfloor (radius / 10)));
             TextAlign "center"; TextBaseline "middle"]
            ++ map (fun c => FillText (fst (fst c)) (snd (fst c)) (snd c))
                 (wrapText measureText label 0 0 (radius * (45#100)) (inject_Z (Qfloor (radius / 9))))
            ++ [Restore])
  end.

(** The iterations [i], [i + 1], ..., [i + count - 1] of the loop. *)
Fixpoint slices_loop (names : list string) (anglePer : Q) (i count : nat) : option (list canvas_cmd) :=
  match count with
  | O => Some []
  | S count' =>
      match slice_cmds names anglePer i with
      | None => None
      | Some c =>
          match slices_loop names anglePer (S i) count' with
          | None => None
          | Some rest => Some (c ++ rest)
          end
      end
  end.

Definition drawWheel (names : list string) (rotDeg : Q) : option (list canvas_cmd) :=
  let segCount := Nat.max 1 (List.length names) in
  let anglePer := 2 / Qnat segCount in
  match slices_loop names anglePer 0 segCount with
  | None => None
  | Some body =>
      Some ([ClearRect 0 0 size size; Save; Translate cx cy; Rotate (rotDeg / 180)]
            ++ body
            ++ [BeginPath; Arc 0 0 (radius + 4) 0 2; LineWidth 6;
                StrokeStyle "rgba(255,255,255,0.8)"; Stroke; Restore])
  end.

End DrawWheel.

(** The colour of slice [i] (line 59). *)
Definition slice_colour (i : nat) : string :=
  if (i mod 2 =? 0)%nat then "#EFB83A" else "#33D7FF".

(** The lines [wrapText] draws for the label of a slice (line 79). *)
Definition label_lines (size : Q) (measureText : string -> Q) (label : string) : list string :=
  map (fun c => fst (fst c))
    (wrapText measureText label 0 0 (radius size * (45#100)) (inject_Z (Qfloor (radius size / 9)))).

(** The depth of the [save] stack after the calls [l], from depth [d];
    [None] when a [restore] finds it empty. *)
Fixpoint save_depth (d : nat) (l : list canvas_cmd) : option nat :=
  match l with
  | [] => Some d
  | Save :: l' => save_depth (S d) l'
  | Restore :: l' => match d with O => None | S d' => save_depth d' l' end
  | _ :: l' => save_depth d l'
  end.

(** The [arc] calls, as [(radius, startAngle, endAngle)]. *)
Fixpoint arcs_of (l : list canvas_cmd) : list (Q * Q * Q) :=
  match l with
  | [] => []
  | Arc _ _ r a0 a1 :: l' => (r, a0, a1) :: arcs_of l'
  | _ :: l' => arcs_of l'
  end.

(** The colours set right before a [fill()]. *)
Fixpoint fills_of (l : list canvas_cmd) : list string :=
  match l with
  | [] => []
  | FillStyle c :: l' =>
      match l' with
      | Fill :: _ => c :: fills_of l'
      | _ => fills_of l'
      end
  | _ :: l' => fills_of l'
  end.

(** The texts passed to [fillText]. *)
Fixpoint texts_of (l : list canvas_cmd) : list string :=
  match l with
  | [] => []
  | FillText s _ _ :: l' => s :: texts_of l'
  | _ :: l' => texts_of l'
  end.

(** * Proofs *)

(** ** Floor and remainder *)

Lemma Qfloor_unique (z : Z) (q : Q) :
  inject_Z z <= q -> q < inject_Z z + 1 -> Qfloor q = z.
Proof.
  intros H1 H2.
  pose proof (Qfloor_le q) as F1. pose proof (Qlt_floor q) as F2.
  rewrite inject_Z_plus in F2. change (inject_Z 1) with 1 in F2.
  assert (A : (z < Qfloor q + 1)%Z) by (rewrite Zlt_Qlt, inject_Z_plus; change (inject_Z 1) with 1; lra).
  assert (B : (Qfloor q < z + 1)%Z) by (rewrite Zlt_Qlt, inject_Z_plus; change (inject_Z 1) with 1; lra).
  lia.
Qed.

Lemma Qtrunc_nonneg (x : Q) : 0 <= x -> Qtrunc x = Qfloor x.
Proof.
  intros H. unfold Qtrunc. apply Qle_bool_iff in H. now rewrite H.
Qed.

Lemma js_rem_shift (y : Q) (m : Z) :
  0 <= y -> y < 360 -> (0 <= m)%Z -> js_rem (y + 360 * inject_Z m) 360 == y.
Proof.
  intros H1 H2 Hm. unfold js_rem.
  assert (E : (y + 360 * inject_Z m) / 360 == y / 360 + inject_Z m) by field.
  assert (Hm' : 0 <= inject_Z m) by (change 0 with (inject_Z 0); now rewrite <- Zle_Qle).
  rewrite Qtrunc_nonneg.
  2:{ rewrite E. assert (0 <= y / 360) by (apply Qle_shift_div_l; lra). lra. }
  rewrite E.
  rewrite (Qfloor_unique m); [ring | |].
  - assert (0 <= y / 360) by (apply Qle_shift_div_l; lra). lra.
  - assert (y / 360 < 1) by (apply Qlt_shift_div_r; lra). lra.
Qed.

Lemma js_rem_nonneg (x : Q) :
  0 <= x -> 0 <= js_rem x 360 /\ js_rem x 360 < 360 /\ js_rem x 360 <= x.
Proof.
  intros H. unfold js_rem.
  assert (Hq : 0 <= x / 360) by (apply Qle_shift_div_l; lra).
  rewrite Qtrunc_nonneg by exact Hq.
  pose proof (Qfloor_le (x / 360)) as F1. pose proof (Qlt_floor (x / 360)) as F2.
  rewrite inject_Z_plus in F2. change (inject_Z 1) with 1 in F2.
  assert (F0 : (0 <= Qfloor (x / 360))%Z).
  { apply (Qfloor_resp_le 0) in Hq. exact Hq. }
  rewrite Zle_Qle in F0. change (inject_Z 0) with 0 in F0.
  assert (E : x == 360 * (x / 360)) by field.
  set (q := x / 360) in *. set (k := inject_Z (Qfloor q)) in *.
  lra.
Qed.

Lemma js_rem_bound (x : Q) : -360 < js_rem x 360 /\ js_rem x 360 < 360.
Proof.
  destruct (Qlt_le_dec x 0) as [Hn | Hp].
  2:{ pose proof (js_rem_nonneg x Hp). lra. }
  unfold js_rem, Qtrunc.
  assert (Hq : ~ 0 <= x / 360).
  { intro C. assert (x / 360 < 0) by (apply Qlt_shift_div_r; lra). lra. }
  destruct (Qle_bool 0 (x / 360)) eqn:B.
  { apply Qle_bool_iff in B. contradiction. }
  rewrite inject_Z_opp.
  assert (E : - (x / 360) == (- x) / 360) by field.
  rewrite (Qfloor_comp _ _ E).
  pose proof (Qfloor_le (- x / 360)) as F1. pose proof (Qlt_floor (- x / 360)) as F2.
  rewrite inject_Z_plus in F2. change (inject_Z 1) with 1 in F2.
  assert (E2 : x == - (360 * (- x / 360))) by field.
  set (q := - x / 360) in *. set (k := inject_Z (Qfloor q)) in *.
  lra.
Qed.

Lemma Qtrunc_comp (x y : Q) : x == y -> Qtrunc x = Qtrunc y.
Proof.
  intros E. unfold Qtrunc.
  destruct (Qle_bool 0 x) eqn:Bx, (Qle_bool 0 y) eqn:By.
  - now apply Qfloor_comp.
  - apply Qle_bool_iff in Bx. rewrite E in Bx. apply Qle_bool_iff in Bx. congruence.
  - apply Qle_bool_iff in By. rewrite <- E in By. apply Qle_bool_iff in By. congruence.
  - f_equal. apply Qfloor_comp. now rewrite E.
Qed.

#[global] Instance js_rem_proper : Proper (Qeq ==> Qeq ==> Qeq) js_rem.
Proof.
  intros x x' Ex y y' Ey. unfold js_rem.
  rewrite (Qtrunc_comp (x / y) (x' / y')) by (now rewrite Ex, Ey).
  now rewrite Ex, Ey.
Qed.

Lemma Qnat_pos (n : nat) : (1 <= n)%nat -> 0 < Qnat n.
Proof.
  intros H. unfold Qnat. change 0 with (inject_Z 0). rewrite <- Zlt_Qlt. lia.
Qed.

Lemma inject_Z_sub (x y : Z) : inject_Z (x - y) == inject_Z x - inject_Z y.
Proof. unfold Z.sub. rewrite inject_Z_plus, inject_Z_opp. reflexivity. Qed.

(** The winner index of a rotation that is [y] (in [(-90, 270)]) plus
    whole turns. *)
Lemma finish_index_turns (y : Q) (k : Z) (N : nat) :
  -90 < y -> y < 270 -> (1 <= k)%Z ->
  js_rem (360 + pointerAngle - js_rem (y + 360 * inject_Z k) 360) 360 == 270 - y.
Proof.
  intros H1 H2 Hk. unfold pointerAngle.
  destruct (Qlt_le_dec y 0) as [Hy | Hy].
  - assert (E : y + 360 * inject_Z k == (y + 360) + 360 * inject_Z (k - 1)).
    { rewrite inject_Z_sub. change (inject_Z 1) with 1. ring. }
    rewrite E, js_rem_shift by (lra || lia).
    setoid_replace (360 + 270 - (y + 360)) with ((270 - y) + 360 * inject_Z 0) by (simpl; ring).
    rewrite js_rem_shift by (lra || lia). reflexivity.
  - rewrite js_rem_shift by (lra || lia).
    setoid_replace (360 + 270 - y) with ((270 - y) + 360 * inject_Z 1) by (simpl; ring).
    rewrite js_rem_shift by (lra || lia). reflexivity.
Qed.


(** ** The easing curve *)

Lemma easeOutCubic_expand (t : Q) : easeOutCubic t == 1 - (1 - t) * (1 - t) * (1 - t).
Proof. unfold easeOutCubic. simpl. ring. Qed.

Lemma easeOutCubic_mono (x y : Q) : x <= y -> easeOutCubic x <= easeOutCubic y.
Proof.
  intros H. rewrite !easeOutCubic_expand.
  set (a := 1 - x). set (b := 1 - y).
  assert (Hab : b <= a) by (unfold a, b; lra).
  assert (Hsq : 0 <= a * a + a * b + b * b).
  { nra. }
  assert (0 <= (a - b) * (a * a + a * b + b * b)) by (apply Qmult_le_0_compat; lra).
  nra.
Qed.

Lemma easeOutCubic_0 : easeOutCubic 0 == 0.
Proof. reflexivity. Qed.

Lemma easeOutCubic_1 : easeOutCubic 1 == 1.
Proof. reflexivity. Qed.

(** ** Index and rotation bounds *)

Lemma finalRotation_pos (N : nat) (targetIndex fullRot : Z) :
  (1 <= N)%nat -> (0 <= targetIndex)%Z -> (1 <= fullRot)%Z ->
  0 < finalRotation N targetIndex fullRot.
Proof.
  intros HN Ht Hf.
  pose proof (Qnat_pos N HN) as Hn.
  unfold finalRotation, targetMidAngle, anglePer.
  set (a := 360 / Qnat N).
  assert (Ha : 0 < a) by (unfold a; apply Qlt_shift_div_l; lra).
  assert (Ht' : 0 <= inject_Z targetIndex)
    by (change 0 with (inject_Z 0); rewrite <- Zle_Qle; lia).
  assert (Hf' : 1 <= inject_Z fullRot)
    by (change 1 with (inject_Z 1); rewrite <- Zle_Qle; lia).
  assert (0 <= inject_Z targetIndex * a) by (apply Qmult_le_0_compat; lra).
  assert (a / 2 == a * (1#2)) by field.
  lra.
Qed.

Lemma finish_index_range (r : Q) (N : nat) :
  (1 <= N)%nat -> (0 <= finish_index r N < Z.of_nat N)%Z.
Proof.
  intros HN. pose proof (Qnat_pos N HN) as Hn.
  unfold finish_index, pointerAngle.
  destruct (js_rem_bound r) as [B1 B2].
  set (m := js_rem r 360) in *.
  destruct (js_rem_nonneg (360 + 270 - m)) as [W1 [W2 _]]; [lra |].
  set (w := js_rem (360 + 270 - m) 360) in *.
  assert (E : w / (360 / Qnat N) == w * Qnat N * (1#360)) by (field; lra).
  assert (Q0 : 0 <= w * Qnat N) by (apply Qmult_le_0_compat; lra).
  assert (Q1 : 0 <= (360 - w) * Qnat N) by (apply Qmult_le_0_compat; lra).
  assert (Q2 : 0 < (360 - w) * Qnat N) by (apply Qmult_lt_0_compat; lra).
  assert (X : (360 - w) * Qnat N == 360 * Qnat N - w * Qnat N) by ring.
  rewrite X in Q2.
  split.
  - change 0%Z with (Qfloor 0). apply Qfloor_resp_le. rewrite E. lra.
  - rewrite Zlt_Qlt. apply (Qle_lt_trans _ (w / (360 / Qnat N))).
    + apply Qfloor_le.
    + rewrite E. unfold Qnat in *. lra.
Qed.

(** ** Preservation of the invariant *)

Lemma Inv_init : Inv init.
Proof.
  unfold Inv, init; simpl. repeat split; try discriminate; try lra.
  repeat constructor; discriminate.
Qed.

Lemma parse_names_nonempty (raw : string) :
  Forall (fun w => w <> EmptyString) (parse_names raw).
Proof.
  apply Forall_forall. intros w Hw. unfold parse_names in Hw.
  apply filter_In in Hw as [_ Hw].
  apply negb_true_iff, String.eqb_neq in Hw. exact Hw.
Qed.

Lemma Inv_update (st : state) (input : string) : Inv st -> Inv (updateClick st input).
Proof.
  intros HI. unfold updateClick.
  destruct (String.eqb (trim input) EmptyString); [exact HI |].
  destruct HI as (H1 & H2 & H3 & H4 & H5).
  pose proof (parse_names_nonempty (trim input)) as P.
  unfold Inv; simpl. refine (conj _ (conj _ (conj H3 (conj _ H5)))).
  - destruct (parse_names (trim input)); discriminate.
  - destruct (parse_names (trim input)); [repeat constructor; discriminate | exact P].
  - intros _. lra.
Qed.

Lemma Qfloor_nonneg (q : Q) : 0 <= q -> (0 <= Qfloor q)%Z.
Proof. intros H. change 0%Z with (Qfloor 0). now apply Qfloor_resp_le. Qed.

Lemma inject_Z_nonneg (z : Z) : (0 <= z)%Z -> 0 <= inject_Z z.
Proof. intros H. change 0 with (inject_Z 0). now rewrite <- Zle_Qle. Qed.

Lemma Inv_spin (st : state) (rnd1 rnd2 rnd3 now : Q) :
  Inv st -> 0 <= rnd1 -> 0 <= rnd2 -> 0 <= rnd3 ->
  Inv (spin st rnd1 rnd2 rnd3 now).
Proof.
  intros HI R1 R2 R3. unfold spin.
  destruct (spinning st || (List.length (names st) =? 0)%nat) eqn:B; [exact HI |].
  apply orb_false_iff in B as [Bs Bl]. apply Nat.eqb_neq in Bl.
  destruct HI as (H1 & H2 & H3 & H4 & H5).
  assert (Hr : 0 <= rotation st) by (apply H4, H3, Bs).
  pose proof (Qnat_pos (List.length (names st))) as Hn.
  assert (Ht : (0 <= Qfloor (rnd1 * Qnat (List.length (names st))))%Z).
  { apply Qfloor_nonneg, Qmult_le_0_compat; [lra |]. apply Qlt_le_weak, Hn. lia. }
  assert (Hf : (0 <= Qfloor (rnd2 * 3))%Z) by (apply Qfloor_nonneg; lra).
  assert (Hd : (0 <= Qfloor (rnd3 * 1200))%Z) by (apply Qfloor_nonneg; lra).
  pose proof (finalRotation_pos (List.length (names st))
                (Qfloor (rnd1 * Qnat (List.length (names st))))
                (4 + Qfloor (rnd2 * 3)) ltac:(lia) Ht ltac:(lia)) as Hfr.
  destruct (js_rem_nonneg (rotation st) Hr) as (J1 & J2 & J3).
  apply inject_Z_nonneg in Hd.
  remember (Qfloor (rnd1 * Qnat (List.length (names st)))) as ti.
  remember (4 + Qfloor (rnd2 * 3))%Z as fr.
  remember (Qfloor (rnd3 * 1200)) as du.
  unfold Inv; cbn [names rotation spinning animation].
  refine (conj H1 (conj H2 (conj _ (conj _ _)))).
  - split; discriminate.
  - discriminate.
  - intros s Hs. injection Hs as <-. unfold session_ok, endRotation.
    cbn [s_startRotation s_endRotation s_duration]. lra.
Qed.

Lemma frame_finish_t (s : session) (now : Q) :
  Qle_bool 1 (frame_t s now) = true -> frame_t s now == 1.
Proof.
  unfold frame_t, min1. intros H.
  destruct (Qle_bool 1 ((now - s_start s) / s_duration s)) eqn:B; [reflexivity |].
  rewrite B in H. discriminate.
Qed.

Lemma frame_rotation_final (s : session) (now : Q) :
  Qle_bool 1 (frame_t s now) = true -> frame_rotation s now == s_endRotation s.
Proof.
  intros H. unfold frame_rotation. rewrite easeOutCubic_expand, (frame_finish_t s now H). ring.
Qed.

Lemma Inv_animate (st : state) (now : Q) : Inv st -> Inv (animate st now).
Proof.
  intros HI. unfold animate.
  destruct (animation st) as [s |] eqn:A; [| exact HI].
  destruct HI as (H1 & H2 & H3 & H4 & H5).
  destruct (Qle_bool 1 (frame_t s now)) eqn:F.
  - unfold Inv; simpl.
    refine (conj H1 (conj H2 (conj _ (conj _ _)))).
    + split; reflexivity.
    + intros _. rewrite (frame_rotation_final s now F). apply (H5 s A).
    + discriminate.
  - unfold Inv; simpl.
    refine (conj H1 (conj H2 (conj _ (conj _ _)))).
    + exact H3.
    + intros E. rewrite A in E. discriminate.
    + exact H5.
Qed.

Lemma reachable_Inv (st : state) : reachable st -> Inv st.
Proof.
  induction 1.
  - apply Inv_init.
  - apply Inv_spin; assumption.
  - apply Inv_animate; assumption.
  - apply Inv_update; assumption.
Qed.

(** ** Frames of one spin *)

Lemma rotation_animate_some (st : state) (s : session) (now : Q) :
  animation st = Some s -> rotation (animate st now) = frame_rotation s now.
Proof.
  intros A. unfold animate. rewrite A.
  destruct (Qle_bool 1 (frame_t s now)); reflexivity.
Qed.

Lemma animate_idle (st : state) (now : Q) : animation st = None -> animate st now = st.
Proof. intros A. unfold animate. now rewrite A. Qed.

Lemma animation_animate (st : state) (s : session) (now : Q) :
  animation st = Some s ->
  animation (animate st now) = if Qle_bool 1 (frame_t s now) then None else Some s.
Proof.
  intros A. unfold animate. rewrite A.
  destruct (Qle_bool 1 (frame_t s now)); [reflexivity | exact A].
Qed.

Lemma min1_mono (x y : Q) : x <= y -> min1 x <= min1 y.
Proof.
  unfold min1. intros H.
  destruct (Qle_bool 1 x) eqn:Bx, (Qle_bool 1 y) eqn:By;
    try apply Qle_bool_iff in Bx; try apply Qle_bool_iff in By.
  - lra.
  - assert (~ 1 <= y) by (intro C; apply Qle_bool_iff in C; congruence). lra.
  - assert (~ 1 <= x) by (intro C; apply Qle_bool_iff in C; congruence). lra.
  - exact H.
Qed.

Lemma frame_rotation_mono (s : session) (now1 now2 : Q) :
  session_ok s -> now1 <= now2 -> frame_rotation s now1 <= frame_rotation s now2.
Proof.
  intros (Hse & _ & Hd) H. unfold frame_rotation.
  assert (Ht : frame_t s now1 <= frame_t s now2).
  { unfold frame_t. apply min1_mono. unfold Qdiv.
    apply Qmult_le_compat_r; [lra |].
    apply Qlt_le_weak, Qinv_lt_0_compat, Hd. }
  pose proof (easeOutCubic_mono _ _ Ht) as He.
  assert (0 <= (s_endRotation s - s_startRotation s)
               * (easeOutCubic (frame_t s now2) - easeOutCubic (frame_t s now1)))
    by (apply Qmult_le_0_compat; lra).
  nra.
Qed.

Lemma spin_accepted (st : state) (rnd1 rnd2 rnd3 now : Q) :
  spinning st = false -> names st <> nil ->
  animation (spin st rnd1 rnd2 rnd3 now)
  = Some (mkSession (Qfloor (rnd1 * Qnat (List.length (names st))))
            (4200 + inject_Z (Qfloor (rnd3 * 1200))) now
            (js_rem (rotation st) 360)
            (endRotation (rotation st) (List.length (names st))
               (Qfloor (rnd1 * Qnat (List.length (names st))))
               (4 + Qfloor (rnd2 * 3)))).
Proof.
  intros Hs Hn. unfold spin. rewrite Hs.
  destruct (names st) as [| w ws]; [contradiction | reflexivity].
Qed.

Lemma spin_spinning (st : state) (rnd1 rnd2 rnd3 now : Q) :
  spinning st = false -> names st <> nil -> spinning (spin st rnd1 rnd2 rnd3 now) = true.
Proof.
  intros Hs Hn. unfold spin. rewrite Hs.
  destruct (names st) as [| w ws]; [contradiction | reflexivity].
Qed.

(** * The claims *)

(** ** C1 *)

(** Claim C1: starting from rotation 0, the winner index that [finishSpin]
    computes from the [endRotation] that [spin] builds for [targetIndex]
    is [N - 1 - targetIndex], the mirror image of the chosen slice, not
    [targetIndex] itself (the two agree only for the middle slice). *)
Theorem spin_finish_round_trip (N : nat) (targetIndex fullRot : Z) :
  (1 <= N)%nat -> (0 <= targetIndex < Z.of_nat N)%Z -> (1 <= fullRot)%Z ->
  finish_index (endRotation 0 N targetIndex fullRot) N
  = (Z.of_nat N - 1 - targetIndex)%Z.
Proof.
  intros HN Hti Hfr.
  pose proof (Qnat_pos N HN) as Hn.
  set (n := Qnat N) in *.
  set (t := inject_Z targetIndex).
  assert (Ht0 : 0 <= t) by (unfold t; change 0 with (inject_Z 0); rewrite <- Zle_Qle; lia).
  assert (Ht1 : t + 1 <= n).
  { unfold t, n, Qnat. change 1 with (inject_Z 1). rewrite <- inject_Z_plus, <- Zle_Qle. lia. }
  set (a := 360 / n).
  assert (Ha : 0 < a) by (unfold a; apply Qlt_shift_div_l; lra).
  assert (Han : a * n == 360) by (unfold a; field; lra).
  set (y := t * a + a / 2 - 90).
  assert (Hlo : 0 <= t * a) by (apply Qmult_le_0_compat; lra).
  assert (Hhi : 0 <= (n - (t + 1)) * a) by (apply Qmult_le_0_compat; lra).
  assert (Ey : endRotation 0 N targetIndex fullRot == y + 360 * inject_Z fullRot).
  { unfold endRotation, finalRotation, targetMidAngle, anglePer. fold n a. fold t. unfold y. ring. }
  unfold finish_index. rewrite Ey.
  rewrite (finish_index_turns y fullRot N).
  2:{ unfold y. assert (a / 2 == a * (1#2)) by field. lra. }
  2:{ unfold y. assert (a / 2 == a * (1#2)) by field.
      assert (X : (n - (t + 1)) * a == a * n - t * a - a) by ring.
      rewrite X, Han in Hhi. lra. }
  2: exact Hfr.
  change (360 / Qnat N) with a.
  assert (E : (270 - y) / a == n - t - (1#2)) by (unfold y, a; field; lra).
  rewrite E.
  apply Qfloor_unique.
  - rewrite inject_Z_sub, inject_Z_sub. fold t. change (inject_Z (Z.of_nat N)) with n.
    change (inject_Z 1) with 1.
    lra.
  - rewrite inject_Z_sub, inject_Z_sub. fold t. change (inject_Z (Z.of_nat N)) with n.
    change (inject_Z 1) with 1.
    lra.
Qed.

Lemma spin_finish_round_trip_witness :
  ((1 <= 2)%nat /\ (0 <= 1 < Z.of_nat 2)%Z /\ (1 <= 4)%Z) /\
  finish_index (endRotation 0 2 1 4) 2 = 0%Z.
Proof.
  split; [repeat split; lia |].
  apply (spin_finish_round_trip 2 1 4); lia.
Defined.

(** ** C2 *)

(** Claim C2: for the list ["A"; "B"], [targetIndex = 1], four full turns
    and start rotation 0, the intermediate values are as the scenario says
    (180, 180, 1620, 1620, and 180 modulo 360), but the winner formula
    returns index 0, so the run reports "Winner: A", not "B". *)
Theorem two_names_scenario :
  anglePer 2 == 180 /\
  targetMidAngle 2 1 == 180 /\
  finalRotation 2 1 4 == 1620 /\
  endRotation 0 2 1 4 == 1620 /\
  js_rem (endRotation 0 2 1 4) 360 == 180 /\
  finish_index (endRotation 0 2 1 4) 2 = 0%Z /\
  name_or_dash ["A"; "B"]%string (finish_index (endRotation 0 2 1 4) 2) = "A"%string /\
  resultText (animate (spin (updateClick init "A,B") (1#2) 0 0 0) 4200)
  = "Winner: A"%string.
Proof. repeat split; vm_compute; reflexivity. Qed.

(** ** C3 *)

(** Claim C3, counterexample: after a completed spin (no name-list update
    in between), the first frame of the next spin sets the rotation below
    its previous value: from 1372.5 down to 292.5. *)
Lemma rotation_drops_between_spins :
  let st1 := animate (spin init 0 0 0 0) 4200 in
  let st2 := animate (spin st1 0 0 0 5000) 5000 in
  animation st1 = None /\ rotation st1 == 2745 # 2 /\
  rotation st2 == 585 # 2 /\ rotation st2 < rotation st1.
Proof. vm_compute. repeat split; reflexivity. Qed.

(** Claim C3, as the code does it: within one spin the rotation never
    decreases from one animation frame to the next (later frame times),
    but the first frame of a spin interpolates from [rotation % 360], so
    the rotation drops to the previous value modulo 360. *)
Theorem rotation_monotone_within_spin (st : state) :
  reachable st ->
  (forall s now1 now2,
     animation st = Some s -> now1 <= now2 ->
     rotation (animate st now1) <= rotation (animate (animate st now1) now2)) /\
  (spinning st = false ->
   forall rnd1 rnd2 rnd3 now,
     rotation (animate (spin st rnd1 rnd2 rnd3 now) now) == js_rem (rotation st) 360).
Proof.
  intros R. destruct (reachable_Inv st R) as (H1 & H2 & H3 & H4 & H5). split.
  - intros s now1 now2 A Hle.
    pose proof (H5 s A) as Hok.
    pose proof (animation_animate st s now1 A) as A1.
    rewrite (rotation_animate_some st s now1 A).
    destruct (Qle_bool 1 (frame_t s now1)) eqn:F.
    + rewrite (animate_idle _ now2 A1), (rotation_animate_some st s now1 A). lra.
    + rewrite (rotation_animate_some _ s now2 A1).
      apply frame_rotation_mono; assumption.
  - intros Hs rnd1 rnd2 rnd3 now.
    rewrite (rotation_animate_some _ _ now (spin_accepted st rnd1 rnd2 rnd3 now Hs H1)).
    unfold frame_rotation, frame_t, min1. cbn [s_start s_duration s_startRotation s_endRotation].
    set (d := 4200 + inject_Z (Qfloor (rnd3 * 1200))).
    assert (X : (now - now) / d == 0) by (unfold Qdiv; ring).
    destruct (Qle_bool 1 ((now - now) / d)) eqn:B.
    + apply Qle_bool_iff in B. rewrite X in B. lra.
    + rewrite easeOutCubic_expand, X. ring.
Qed.

Lemma rotation_monotone_within_spin_witness :
  let st1 := animate (spin init 0 0 0 0) 4200 in
  let st2 := spin st1 0 0 0 5000 in
  reachable st1 /\ spinning st1 = false /\
  rotation (animate (spin st1 0 0 0 5000) 5000) == js_rem (rotation st1) 360 /\
  js_rem (rotation st1) 360 < rotation st1 /\
  reachable st2 /\
  rotation (animate st2 6000) <= rotation (animate (animate st2 6000) 8000) /\
  rotation (animate st2 6000) < rotation (animate (animate st2 6000) 8000).
Proof.
  intros st1 st2.
  assert (R1 : reachable st1).
  { apply reach_frame, reach_spin; [apply reach_init | lra ..]. }
  assert (S1 : spinning st1 = false) by (vm_compute; reflexivity).
  assert (R2 : reachable st2) by (apply reach_spin; [exact R1 | lra ..]).
  destruct (animation st2) as [s |] eqn:A.
  2:{ vm_compute in A. discriminate A. }
  split; [exact R1 | split; [exact S1 | split]].
  - exact (proj2 (rotation_monotone_within_spin st1 R1) S1 0 0 0 5000).
  - split; [vm_compute; reflexivity |]. split; [exact R2 | split].
    + exact (proj1 (rotation_monotone_within_spin st2 R2) s 6000 8000 A ltac:(lra)).
    + vm_compute. reflexivity.
Defined.

(** ** C4 *)

(** Claim C4, counterexample: the update handler runs while a spin is in
    progress and replaces the names. *)
Lemma update_during_spin_not_rejected :
  spinning (spin init 0 0 0 0) = true /\
  names (updateClick (spin init 0 0 0 0) "A,B") = ["A"; "B"]%string /\
  names (updateClick (spin init 0 0 0 0) "A,B") <> names (spin init 0 0 0 0).
Proof. vm_compute. split; [reflexivity | split; [reflexivity | discriminate]]. Qed.

(** Claim C4, as the code does it: the update handler has no spinning check
    of its own. For non-blank input, in any state (spinning or not), it
    installs the parsed list (or the default list when the parse is empty),
    sets rotation to 0 and the result text to "Winner: —", and leaves the
    spinning flag and the pending animation frame as they were. *)
Theorem update_ignores_spinning (st : state) (input : string) :
  trim input <> EmptyString ->
  names (updateClick st input)
    = match parse_names (trim input) with [] => defaultNames | arr => arr end /\
  rotation (updateClick st input) = 0 /\
  resultText (updateClick st input) = "Winner: —"%string /\
  spinning (updateClick st input) = spinning st /\
  animation (updateClick st input) = animation st.
Proof.
  intros H. apply String.eqb_neq in H. unfold updateClick. rewrite H.
  repeat split. destruct (parse_names (trim input)); reflexivity.
Qed.

Lemma update_ignores_spinning_witness :
  trim "A,B" <> EmptyString /\
  names (updateClick (spin init 0 0 0 0) "A,B") = ["A"; "B"]%string /\
  spinning (updateClick (spin init 0 0 0 0) "A,B") = true.
Proof.
  assert (H : trim "A,B" <> EmptyString) by (vm_compute; discriminate).
  destruct (update_ignores_spinning (spin init 0 0 0 0) "A,B" H) as (N & _ & _ & S & _).
  split; [exact H | split].
  - rewrite N. vm_compute. reflexivity.
  - rewrite S. vm_compute. reflexivity.
Defined.

(** ** C5 *)

(** Claim C5, counterexample: blank input (empty or spaces only) leaves a
    previously installed list in place instead of restoring the defaults. *)
Lemma blank_update_keeps_names :
  names (updateClick (updateClick init "X") "") = ["X"]%string /\
  names (updateClick (updateClick init "X") "   ") = ["X"]%string /\
  ["X"]%string <> defaultNames.
Proof. vm_compute. repeat split; discriminate. Qed.

(** Claim C5, as the code does it: blank input (empty after trimming) makes
    the update handler return without any change; non-blank input whose
    parse yields no entries (only commas and whitespace) installs exactly
    the default list. *)
Theorem blank_update_noop_empty_parse_default (st : state) (input : string) :
  (trim input = EmptyString -> updateClick st input = st) /\
  (trim input <> EmptyString -> parse_names (trim input) = [] ->
   names (updateClick st input) = defaultNames).
Proof.
  split.
  - intros H. unfold updateClick. rewrite H. reflexivity.
  - intros H P. apply String.eqb_neq in H. unfold updateClick. rewrite H, P. reflexivity.
Qed.

Lemma blank_update_noop_empty_parse_default_witness :
  updateClick (updateClick init "X") "  " = updateClick init "X" /\
  trim " , ," <> EmptyString /\ parse_names (trim " , ,") = [] /\
  names (updateClick (updateClick init "X") " , ,") = defaultNames.
Proof.
  assert (T : trim " , ," <> EmptyString) by (vm_compute; discriminate).
  assert (P : parse_names (trim " , ,") = []) by (vm_compute; reflexivity).
  split; [| split; [exact T | split; [exact P |]]].
  - apply (proj1 (blank_update_noop_empty_parse_default (updateClick init "X") "  ")).
    vm_compute. reflexivity.
  - apply (proj2 (blank_update_noop_empty_parse_default (updateClick init "X") " , ,") T P).
Defined.

(** ** C6 *)

(** Claim C6: when the spinning flag is set or the names list is empty,
    [spin] returns the state unchanged: flag, rotation, names, and no new
    animation session. *)
Theorem spin_rejected_noop (st : state) (rnd1 rnd2 rnd3 now : Q) :
  spinning st = true \/ names st = [] -> spin st rnd1 rnd2 rnd3 now = st.
Proof.
  intros [H | H]; unfold spin.
  - rewrite H. reflexivity.
  - rewrite H, orb_true_r. reflexivity.
Qed.

Lemma spin_rejected_noop_witness :
  (spinning (spin init 0 0 0 0) = true \/ names (spin init 0 0 0 0) = []) /\
  spin (spin init 0 0 0 0) (1#2) (1#2) (1#2) 100 = spin init 0 0 0 0.
Proof.
  assert (H : spinning (spin init 0 0 0 0) = true \/ names (spin init 0 0 0 0) = [])
    by (left; reflexivity).
  split; [exact H | apply (spin_rejected_noop _ _ _ _ _ H)].
Defined.

(** ** C7 *)

(** Claim C7: [easeOutCubic t = 1 - (1 - t)^3] (in exact arithmetic) maps
    0 to 0 and 1 to 1, is non-decreasing on [0, 1] and maps [0, 1] into
    [0, 1]. *)
Theorem easeOutCubic_spec :
  easeOutCubic 0 == 0 /\ easeOutCubic 1 == 1 /\
  (forall x y, 0 <= x -> x <= y -> y <= 1 -> easeOutCubic x <= easeOutCubic y) /\
  (forall t, 0 <= t -> t <= 1 -> 0 <= easeOutCubic t /\ easeOutCubic t <= 1).
Proof.
  split; [exact easeOutCubic_0 | split; [exact easeOutCubic_1 | split]].
  - intros x y _ H _. now apply easeOutCubic_mono.
  - intros t H0 H1. split.
    + rewrite <- easeOutCubic_0. now apply easeOutCubic_mono.
    + rewrite <- easeOutCubic_1. now apply easeOutCubic_mono.
Qed.

Lemma easeOutCubic_spec_witness :
  easeOutCubic (1#4) <= easeOutCubic (1#2) /\
  0 <= easeOutCubic (1#3) /\ easeOutCubic (1#3) <= 1.
Proof.
  destruct easeOutCubic_spec as (_ & _ & M & B).
  split; [apply M; vm_compute; discriminate |].
  apply B; vm_compute; discriminate.
Defined.

(** ** C8 *)

(** Claim C8: in every reachable state the names list is non-empty, so an
    idle reachable state always accepts a spin request: the empty-list
    guard of [spin] never fires there. *)
Theorem names_nonempty_reachable (st : state) :
  reachable st ->
  names st <> nil /\
  (spinning st = false ->
   forall rnd1 rnd2 rnd3 now, spinning (spin st rnd1 rnd2 rnd3 now) = true).
Proof.
  intros R. destruct (reachable_Inv st R) as (H1 & _).
  split; [exact H1 |].
  intros Hs rnd1 rnd2 rnd3 now. now apply spin_spinning.
Qed.

Lemma names_nonempty_reachable_witness :
  reachable (updateClick init ",,") /\ names (updateClick init ",,") <> nil.
Proof.
  assert (R : reachable (updateClick init ",,")) by (apply reach_update, reach_init).
  split; [exact R | exact (proj1 (names_nonempty_reachable _ R))].
Defined.

(** ** C9 *)

(** Claim C9: in a reachable state, the frame that ends a spin computes an
    index in [0, names.length) and displays the (non-empty) name at that
    index, never the "—" fallback. *)
Theorem finish_shows_listed_name (st : state) (s : session) (now : Q) :
  reachable st -> animation st = Some s -> Qle_bool 1 (frame_t s now) = true ->
  exists i w,
    (i < List.length (names st))%nat /\
    finish_index (rotation (animate st now)) (List.length (names st)) = Z.of_nat i /\
    nth_error (names st) i = Some w /\ w <> EmptyString /\
    resultText (animate st now) = ("Winner: " ++ w)%string.
Proof.
  intros R A F. destruct (reachable_Inv st R) as (H1 & H2 & _).
  assert (HN : (1 <= List.length (names st))%nat)
    by (destruct (names st); [contradiction | simpl; lia]).
  rewrite (rotation_animate_some st s now A).
  destruct (finish_index_range (frame_rotation s now) (List.length (names st)) HN) as [K0 K1].
  set (k := finish_index (frame_rotation s now) (List.length (names st))) in *.
  assert (Hi : (Z.to_nat k < List.length (names st))%nat) by lia.
  destruct (nth_error (names st) (Z.to_nat k)) as [w |] eqn:Nw.
  2:{ apply nth_error_None in Nw. lia. }
  assert (Hw : w <> EmptyString).
  { rewrite Forall_forall in H2. apply H2. eapply nth_error_In. exact Nw. }
  exists (Z.to_nat k), w. repeat split; try assumption; try lia.
  unfold animate. rewrite A, F. cbn [finishSpin set_animation set_rotation names rotation resultText].
  fold k. unfold name_or_dash.
  replace (k <? 0)%Z with false by (symmetry; apply Z.ltb_ge; lia).
  rewrite Nw. apply String.eqb_neq in Hw. rewrite Hw. reflexivity.
Qed.

Lemma finish_shows_listed_name_witness :
  reachable (spin init 0 0 0 0) /\
  animation (spin init 0 0 0 0) = Some first_session /\
  Qle_bool 1 (frame_t first_session 4200) = true /\
  exists i w,
    (i < List.length (names (spin init 0 0 0 0)))%nat /\
    finish_index (rotation (animate (spin init 0 0 0 0) 4200))
                 (List.length (names (spin init 0 0 0 0))) = Z.of_nat i /\
    nth_error (names (spin init 0 0 0 0)) i = Some w /\ w <> EmptyString /\
    resultText (animate (spin init 0 0 0 0) 4200) = ("Winner: " ++ w)%string.
Proof.
  assert (R : reachable (spin init 0 0 0 0))
    by (apply reach_spin; [apply reach_init | lra ..]).
  assert (A : animation (spin init 0 0 0 0) = Some first_session) by reflexivity.
  assert (F : Qle_bool 1 (frame_t first_session 4200) = true) by (vm_compute; reflexivity).
  split; [exact R | split; [exact A | split; [exact F |]]].
  exact (finish_shows_listed_name _ _ 4200 R A F).
Defined.

(** ** C10 *)

(** Claim C10: [finishSpin] ignores its [winIndex] argument, and the text
    shown by the closing frame (as well as the rotation of every frame) is
    the same for two animation sessions that differ only in the target
    index carried from [spin]. *)
Theorem finishSpin_ignores_winIndex :
  (forall st w1 w2, finishSpin st w1 = finishSpin st w2) /\
  (forall st now ti1 ti2 d t0 sR eR,
     resultText (animate (set_animation st (Some (mkSession ti1 d t0 sR eR))) now)
     = resultText (animate (set_animation st (Some (mkSession ti2 d t0 sR eR))) now) /\
     rotation (animate (set_animation st (Some (mkSession ti1 d t0 sR eR))) now)
     = rotation (animate (set_animation st (Some (mkSession ti2 d t0 sR eR))) now)).
Proof.
  split; [reflexivity |].
  intros st now ti1 ti2 d t0 sR eR.
  unfold animate, frame_rotation, frame_t. cbn [set_animation animation].
  cbn [s_start s_duration s_startRotation s_endRotation].
  destruct (Qle_bool 1 (min1 ((now - t0) / d))); split; reflexivity.
Qed.

(** * Further properties of the code *)

(** ** Strings: split, join, trim *)

Lemma split_comma_split_on (s : string) : split_comma s = split_on ","%char s.
Proof. induction s as [| c s IH]; simpl; [reflexivity | now rewrite IH]. Qed.

Lemma split_on_not_nil (sep : ascii) (s : string) : split_on sep s <> [].
Proof.
  induction s as [| c s IH]; simpl; [discriminate |].
  destruct (Ascii.eqb c sep); [discriminate |].
  destruct (split_on sep s); discriminate.
Qed.

Lemma concat_cons_String (sep : string) (c : ascii) (w : string) (ws : list string) :
  String.concat sep (String c w :: ws) = String c (String.concat sep (w :: ws)).
Proof. destruct ws; reflexivity. Qed.

Lemma split_on_join (sep : ascii) (s : string) :
  String.concat (String sep EmptyString) (split_on sep s) = s.
Proof.
  induction s as [| c s IH]; [reflexivity |]. simpl.
  destruct (Ascii.eqb c sep) eqn:E.
  - apply Ascii.eqb_eq in E. subst c.
    destruct (split_on sep s) as [| w ws] eqn:S; [now apply split_on_not_nil in S |].
    change (String sep (String.concat (String sep EmptyString) (w :: ws)) = String sep s).
    now rewrite IH.
  - destruct (split_on sep s) as [| w ws] eqn:S; [now apply split_on_not_nil in S |].
    rewrite concat_cons_String. now rewrite IH.
Qed.

Lemma list_ascii_of_string_app (a b : string) :
  list_ascii_of_string (a ++ b) = list_ascii_of_string a ++ list_ascii_of_string b.
Proof. induction a as [| c a IH]; simpl; [reflexivity | now rewrite IH]. Qed.

Lemma list_ascii_of_string_inj (a b : string) :
  list_ascii_of_string a = list_ascii_of_string b -> a = b.
Proof.
  intros H. rewrite <- (string_of_list_ascii_of_string a), <- (string_of_list_ascii_of_string b).
  now rewrite H.
Qed.

Lemma drop_spaces_suffix (l : list ascii) : exists p, l = p ++ drop_spaces l.
Proof.
  induction l as [| c l IH]; simpl; [now exists [] |].
  destruct (is_js_space c).
  - destruct IH as [p Hp]. exists (c :: p). simpl. now rewrite <- Hp.
  - now exists [].
Qed.

Lemma drop_spaces_fixed (l : list ascii) :
  drop_spaces l = l <-> match l with [] => True | c :: _ => is_js_space c = false end.
Proof.
  destruct l as [| c l]; simpl; [tauto |].
  destruct (is_js_space c) eqn:E; split; intros H; try reflexivity; try discriminate.
  exfalso. destruct (drop_spaces_suffix l) as [p Hp].
  rewrite H in Hp.
  assert (Hlen : List.length l = List.length (p ++ c :: l)) by (f_equal; exact Hp).
  rewrite length_app in Hlen. simpl in Hlen. lia.
Qed.

Lemma drop_spaces_idem (l : list ascii) : drop_spaces (drop_spaces l) = drop_spaces l.
Proof.
  induction l as [| c l IH]; simpl; [reflexivity |].
  destruct (is_js_space c) eqn:E; [exact IH |]. simpl. now rewrite E.
Qed.

Lemma drop_spaces_app (l1 l2 : list ascii) :
  l1 <> [] -> drop_spaces l1 = l1 -> drop_spaces (l1 ++ l2) = l1 ++ l2.
Proof.
  intros Hn H. apply drop_spaces_fixed in H. apply drop_spaces_fixed.
  destruct l1; [contradiction | exact H].
Qed.

Lemma drop_spaces_app_inv (l1 l2 : list ascii) :
  l1 <> [] -> drop_spaces (l1 ++ l2) = l1 ++ l2 -> drop_spaces l1 = l1.
Proof.
  intros Hn H. apply drop_spaces_fixed in H. apply drop_spaces_fixed.
  destruct l1; [contradiction | exact H].
Qed.

Lemma drop_spaces_length (l : list ascii) :
  drop_spaces l = l \/ (List.length (drop_spaces l) < List.length l)%nat.
Proof.
  destruct (drop_spaces_suffix l) as [p Hp].
  destruct p as [| c p]; [left; exact (eq_sym Hp) | right].
  assert (List.length l = List.length (c :: p ++ drop_spaces l)) by (f_equal; exact Hp).
  simpl in H. rewrite length_app in H. lia.
Qed.

Lemma trim_list (s : string) :
  list_ascii_of_string (trim s)
  = rev (drop_spaces (rev (drop_spaces (list_ascii_of_string s)))).
Proof. unfold trim. apply list_ascii_of_string_of_list_ascii. Qed.

Lemma trim_fixed (s : string) :
  trim s = s <->
  drop_spaces (list_ascii_of_string s) = list_ascii_of_string s /\
  drop_spaces (rev (list_ascii_of_string s)) = rev (list_ascii_of_string s).
Proof.
  set (l := list_ascii_of_string s). split.
  - intros H. assert (HL : list_ascii_of_string (trim s) = l) by now rewrite H.
    rewrite trim_list in HL. fold l in HL.
    assert (Hlen : List.length (drop_spaces (rev (drop_spaces l))) = List.length l).
    { rewrite <- length_rev, HL. reflexivity. }
    destruct (drop_spaces_length l) as [E1 | E1].
    + rewrite E1 in Hlen |- *. split; [reflexivity |].
      destruct (drop_spaces_length (rev l)) as [E2 | E2]; [exact E2 |].
      rewrite length_rev in E2. lia.
    + exfalso.
      destruct (drop_spaces_length (rev (drop_spaces l))) as [E2 | E2].
      * rewrite E2, length_rev in Hlen. lia.
      * rewrite length_rev in E2. lia.
  - intros [H1 H2]. apply list_ascii_of_string_inj. rewrite trim_list. fold l.
    now rewrite H1, H2, rev_involutive.
Qed.

Lemma trim_idem (s : string) : trim (trim s) = trim s.
Proof.
  apply trim_fixed. rewrite trim_list.
  set (K := drop_spaces (list_ascii_of_string s)).
  set (M := drop_spaces (rev K)).
  rewrite rev_involutive. split; [| apply drop_spaces_idem].
  destruct (drop_spaces_suffix (rev K)) as [p Hp]. fold M in Hp.
  assert (HK : K = rev M ++ rev p).
  { rewrite <- rev_app_distr, <- Hp, rev_involutive. reflexivity. }
  clearbody M. destruct M as [| c m]; [reflexivity |].
  apply (drop_spaces_app_inv (rev (c :: m)) (rev p)).
  - simpl. intro C. apply app_eq_nil in C as [_ C]. discriminate.
  - rewrite <- HK. unfold K. apply drop_spaces_idem.
Qed.

Lemma trim_space_cons (s : string) : trim (String " " s) = trim s.
Proof. reflexivity. Qed.

Lemma contains_char_In (c : ascii) (s : string) :
  contains_char c s = true <-> In c (list_ascii_of_string s).
Proof.
  induction s as [| d s IH]; simpl; [split; [discriminate | tauto] |].
  rewrite orb_true_iff, IH, Ascii.eqb_eq. split; intros [H | H]; auto.
Qed.

Lemma In_drop_spaces (x : ascii) (l : list ascii) : In x (drop_spaces l) -> In x l.
Proof.
  intros H. destruct (drop_spaces_suffix l) as [p Hp]. rewrite Hp. apply in_or_app. now right.
Qed.

Lemma contains_char_trim (c : ascii) (s : string) :
  contains_char c (trim s) = true -> contains_char c s = true.
Proof.
  rewrite !contains_char_In, trim_list. intros H.
  apply in_rev, In_drop_spaces, in_rev, In_drop_spaces in H. exact H.
Qed.

Lemma split_on_pieces (sep : ascii) (s w : string) :
  In w (split_on sep s) -> contains_char sep w = false.
Proof.
  revert w. induction s as [| c s IH]; intros w H; simpl in H.
  - destruct H as [<- | []]. reflexivity.
  - destruct (Ascii.eqb c sep) eqn:E.
    + destruct H as [<- | H]; [reflexivity | now apply IH].
    + destruct (split_on sep s) as [| v vs] eqn:S; [now apply split_on_not_nil in S |].
      destruct H as [<- | H].
      * simpl. rewrite E. apply IH. now left.
      * apply IH. now right.
Qed.

Lemma parse_names_well_formed (raw : string) : Forall well_formed_name (parse_names raw).
Proof.
  apply Forall_forall. intros w Hw. unfold parse_names in Hw.
  apply filter_In in Hw as [Hw Hne].
  apply negb_true_iff, String.eqb_neq in Hne.
  apply in_map_iff in Hw as (v & <- & Hv).
  split; [exact Hne | split; [| apply trim_idem]].
  destruct (contains_char "," (trim v)) eqn:C; [| reflexivity].
  apply contains_char_trim in C. rewrite (split_on_pieces "," raw v) in C; [discriminate |].
  now rewrite <- split_comma_split_on.
Qed.

Lemma split_on_app_sep (sep : ascii) (a b : string) :
  contains_char sep a = false -> split_on sep (a ++ String sep b) = a :: split_on sep b.
Proof.
  induction a as [| c a IH]; intros H; simpl.
  - now rewrite Ascii.eqb_refl.
  - simpl in H. apply orb_false_iff in H as [H1 H2].
    rewrite H1, (IH H2). reflexivity.
Qed.

Lemma split_on_no_sep (sep : ascii) (a : string) :
  contains_char sep a = false -> split_on sep a = [a].
Proof.
  induction a as [| c a IH]; intros H; simpl; [reflexivity |].
  simpl in H. apply orb_false_iff in H as [H1 H2]. now rewrite H1, (IH H2).
Qed.

Lemma split_on_other (sep c : ascii) (s : string) :
  Ascii.eqb c sep = false ->
  split_on sep (String c s)
  = match split_on sep s with [] => [String c EmptyString] | w :: ws => String c w :: ws end.
Proof. intros H. simpl. now rewrite H. Qed.

Lemma split_join_names (n : string) (ns : list string) :
  Forall (fun w => contains_char ","%char w = false) (n :: ns) ->
  split_on ","%char (String.concat ", " (n :: ns)) = n :: map (String " ") ns.
Proof.
  revert n. induction ns as [| m ms IH]; intros n H.
  - inversion H. now apply split_on_no_sep.
  - inversion H as [| ? ? Hn Hms]; subst.
    change (String.concat ", " (n :: m :: ms))
      with (n ++ String "," (String " " (String.concat ", " (m :: ms))))%string.
    rewrite (split_on_app_sep _ _ _ Hn). f_equal.
    rewrite split_on_other by reflexivity. rewrite (IH m Hms). reflexivity.
Qed.

Lemma string_app_assoc (a b c : string) : (a ++ (b ++ c) = (a ++ b) ++ c)%string.
Proof. induction a as [| x a IH]; simpl; [reflexivity | now rewrite IH]. Qed.

Lemma concat_first (sep n : string) (ns : list string) :
  exists t, String.concat sep (n :: ns) = (n ++ t)%string.
Proof.
  destruct ns as [| m ms].
  - exists EmptyString. simpl. induction n as [| x n IH]; simpl; [reflexivity | now rewrite <- IH].
  - exists (sep ++ String.concat sep (m :: ms))%string. reflexivity.
Qed.

Lemma concat_last (sep : string) (l : list string) :
  l <> [] -> Forall well_formed_name l ->
  exists t w, String.concat sep l = (t ++ w)%string /\ well_formed_name w.
Proof.
  induction l as [| n ns IH]; intros Hn H; [contradiction |].
  inversion H as [| ? ? Hw Hns]; subst.
  destruct ns as [| m ms].
  - exists EmptyString, n. now split.
  - destruct (IH ltac:(discriminate) Hns) as (t & w & Ht & Hw').
    exists (n ++ sep ++ t)%string, w. split; [| exact Hw'].
    change (String.concat sep (n :: m :: ms)) with (n ++ sep ++ String.concat sep (m :: ms))%string.
    rewrite Ht, !string_app_assoc. reflexivity.
Qed.

Lemma list_ascii_of_string_nil (w : string) :
  w <> EmptyString -> list_ascii_of_string w <> [].
Proof. destruct w; simpl; [contradiction | discriminate]. Qed.

Lemma trim_join_names (l : list string) :
  Forall well_formed_name l -> trim (String.concat ", " l) = String.concat ", " l.
Proof.
  intros H. destruct l as [| n ns]; [reflexivity |].
  apply trim_fixed. split.
  - destruct (concat_first ", " n ns) as [t Ht]. rewrite Ht, list_ascii_of_string_app.
    inversion H as [| ? ? (Hn1 & _ & Hn3) _]; subst.
    apply trim_fixed in Hn3 as [Hd _].
    apply drop_spaces_app; [now apply list_ascii_of_string_nil | exact Hd].
  - destruct (concat_last ", " (n :: ns) ltac:(discriminate) H) as (t & w & Ht & (Hw1 & _ & Hw3)).
    rewrite Ht, list_ascii_of_string_app, rev_app_distr.
    apply trim_fixed in Hw3 as [_ Hd].
    apply drop_spaces_app; [| exact Hd].
    intro C. apply (f_equal (@rev ascii)) in C. rewrite rev_involutive in C.
    now apply (list_ascii_of_string_nil w).
Qed.

Lemma filter_nonempty_id (l : list string) :
  Forall (fun w => w <> EmptyString) l ->
  filter (fun s => negb (String.eqb s EmptyString)) l = l.
Proof.
  induction 1 as [| w ws Hw _ IH]; simpl; [reflexivity |].
  apply String.eqb_neq in Hw. now rewrite Hw, IH.
Qed.

Lemma names_unchanged_by_spin (st : state) (rnd1 rnd2 rnd3 now : Q) :
  names (spin st rnd1 rnd2 rnd3 now) = names st.
Proof. unfold spin. destruct (_ || _); reflexivity. Qed.

Lemma names_unchanged_by_animate (st : state) (now : Q) :
  names (animate st now) = names st.
Proof.
  unfold animate. destruct (animation st) as [s |]; [| reflexivity].
  destruct (Qle_bool 1 (frame_t s now)); reflexivity.
Qed.

Lemma reachable_names_well_formed (st : state) :
  reachable st -> Forall well_formed_name (names st).
Proof.
  induction 1 as [| st r1 r2 r3 now _ IH | st now _ IH | st input _ IH].
  - repeat constructor; try discriminate.
  - now rewrite names_unchanged_by_spin.
  - now rewrite names_unchanged_by_animate.
  - unfold updateClick. destruct (String.eqb (trim input) EmptyString); [exact IH |].
    cbn [names]. pose proof (parse_names_well_formed (trim input)) as P.
    destruct (parse_names (trim input)); [| exact P].
    repeat constructor; try discriminate.
Qed.

(** ** Extra properties: names input *)

(** Joining the pieces of [s.split(sep)] with [sep] gives back [s]; the
    split always has at least one piece. *)
Theorem split_join_roundtrip (sep : ascii) (s : string) :
  String.concat (String sep EmptyString) (split_on sep s) = s /\ split_on sep s <> [] /\
  split_comma s = split_on ","%char s.
Proof.
  split; [apply split_on_join | split; [apply split_on_not_nil | apply split_comma_split_on]].
Qed.

(** Every entry produced by the parser of the update handler is non-empty,
    contains no comma, and has no surrounding whitespace. *)
Theorem parse_names_entries (raw : string) :
  Forall well_formed_name (parse_names raw).
Proof. apply parse_names_well_formed. Qed.

(** Encoding a list of well-formed names with [join(', ')], as the page
    does to fill the input field, and parsing it back with the update
    handler's parser gives the same list. *)
Theorem parse_join_roundtrip (l : list string) :
  Forall well_formed_name l -> parse_names (trim (String.concat ", " l)) = l.
Proof.
  intros H. rewrite (trim_join_names l H).
  destruct l as [| n ns]; [reflexivity |].
  unfold parse_names. rewrite split_comma_split_on, split_join_names.
  2:{ eapply Forall_impl; [| exact H]. intros w (_ & C & _). exact C. }
  inversion H as [| ? ? (Wn & _ & Tn) Hns]; subst.
  cbn [map]. rewrite Tn, map_map.
  assert (E : map (fun w => trim (String " " w)) ns = ns).
  { clear H. induction Hns as [| w ws (_ & _ & Tw) _ IH]; [reflexivity |].
    cbn [map]. rewrite trim_space_cons, Tw, IH. reflexivity. }
  rewrite E. apply filter_nonempty_id.
  constructor; [exact Wn |].
  eapply Forall_impl; [| exact Hns]. intros w (W & _). exact W.
Qed.

Lemma parse_join_roundtrip_witness :
  Forall well_formed_name ["Ann"; "Bo Li"]%string /\
  parse_names (trim (String.concat ", " ["Ann"; "Bo Li"]%string)) = ["Ann"; "Bo Li"]%string.
Proof.
  assert (H : Forall well_formed_name ["Ann"; "Bo Li"]%string)
    by (repeat constructor; discriminate).
  split; [exact H | exact (parse_join_roundtrip _ H)].
Defined.

(** In every reachable state, clicking update with the input holding
    [names.join(', ')] (as the page fills it at load time) keeps the
    names list as it is and resets the rotation to 0. *)
Theorem update_with_joined_names (st : state) :
  reachable st ->
  names (updateClick st (String.concat ", " (names st))) = names st /\
  rotation (updateClick st (String.concat ", " (names st))) = 0.
Proof.
  intros R. pose proof (reachable_names_well_formed st R) as W.
  destruct (reachable_Inv st R) as (Hn & _).
  unfold updateClick. rewrite (trim_join_names _ W).
  destruct (names st) as [| n ns] eqn:E; [contradiction |].
  destruct (concat_first ", " n ns) as [t Ht].
  assert (NE : String.eqb (String.concat ", " (n :: ns)) EmptyString = false).
  { inversion W as [| ? ? (Wn & _) _]; subst. rewrite Ht.
    apply String.eqb_neq. destruct n; [contradiction | discriminate]. }
  rewrite NE. cbn [names rotation]. split; [| reflexivity].
  rewrite <- (trim_join_names _ W), (parse_join_roundtrip _ W). reflexivity.
Qed.

Lemma update_with_joined_names_witness :
  reachable init /\ names (updateClick init initialInput) = defaultNames.
Proof.
  split; [constructor |]. exact (proj1 (update_with_joined_names init reach_init)).
Defined.

(** ** Extra properties: spin sessions *)

Lemma Qfloor_lt_nat (q : Q) (n : Z) : q < inject_Z n -> (Qfloor q < n)%Z.
Proof.
  intros H. rewrite Zlt_Qlt. apply (Qle_lt_trans _ q); [apply Qfloor_le | exact H].
Qed.

Lemma min1_ge1 (x : Q) : Qle_bool 1 (min1 x) = true <-> 1 <= x.
Proof.
  unfold min1. destruct (Qle_bool 1 x) eqn:B.
  - split; [intros _; now apply Qle_bool_iff | reflexivity].
  - rewrite B. split; [discriminate | intros H; apply Qle_bool_iff in H; congruence].
Qed.

(** An accepted spin from a reachable idle state schedules a session whose
    target index lies in [0, N), whose duration is an integer number of
    milliseconds in [4200, 5400), which starts at the current time from
    [rotation % 360], and whose end rotation lies strictly between 1350
    and 2430 degrees beyond the current rotation (4 to 6 full turns plus
    the slice offset). *)
Theorem spin_session_bounds (st : state) (rnd1 rnd2 rnd3 now : Q) :
  reachable st -> spinning st = false ->
  0 <= rnd1 < 1 -> 0 <= rnd2 < 1 -> 0 <= rnd3 < 1 ->
  exists s, animation (spin st rnd1 rnd2 rnd3 now) = Some s /\
    (0 <= s_targetIndex s < Z.of_nat (List.length (names st)))%Z /\
    (exists k : Z, s_duration s = 4200 + inject_Z k /\ (0 <= k < 1200)%Z) /\
    s_start s = now /\
    s_startRotation s = js_rem (rotation st) 360 /\
    1350 < s_endRotation s - rotation st /\ s_endRotation s - rotation st < 2430.
Proof.
  intros R Hs [R1a R1b] [R2a R2b] [R3a R3b].
  destruct (reachable_Inv st R) as (Hn & _).
  rewrite (spin_accepted st rnd1 rnd2 rnd3 now Hs Hn).
  eexists; split; [reflexivity |]. cbn [s_targetIndex s_duration s_start s_startRotation s_endRotation].
  set (N := List.length (names st)) in *.
  assert (HN : (1 <= N)%nat) by (unfold N; destruct (names st); [contradiction | simpl; lia]).
  pose proof (Qnat_pos N HN) as Hq.
  assert (Ti0 : (0 <= Qfloor (rnd1 * Qnat N))%Z) by (apply Qfloor_nonneg; nra).
  assert (Ti1 : (Qfloor (rnd1 * Qnat N) < Z.of_nat N)%Z).
  { apply Qfloor_lt_nat. change (inject_Z (Z.of_nat N)) with (Qnat N). nra. }
  assert (F0 : (0 <= Qfloor (rnd2 * 3))%Z) by (apply Qfloor_nonneg; lra).
  assert (F1 : (Qfloor (rnd2 * 3) < 3)%Z) by (apply Qfloor_lt_nat; unfold inject_Z; lra).
  assert (D0 : (0 <= Qfloor (rnd3 * 1200))%Z) by (apply Qfloor_nonneg; lra).
  assert (D1 : (Qfloor (rnd3 * 1200) < 1200)%Z) by (apply Qfloor_lt_nat; unfold inject_Z; lra).
  split; [lia | split; [eexists; split; [reflexivity | lia] | split; [reflexivity | split; [reflexivity |]]]].
  unfold endRotation, finalRotation, targetMidAngle, anglePer.
  set (t := inject_Z (Qfloor (rnd1 * Qnat N))).
  set (f := inject_Z (4 + Qfloor (rnd2 * 3))).
  set (a := 360 / Qnat N).
  assert (Ha : 0 < a) by (unfold a; apply Qlt_shift_div_l; lra).
  assert (Han : a * Qnat N == 360) by (unfold a; field; lra).
  assert (Ht0 : 0 <= t) by (apply inject_Z_nonneg; exact Ti0).
  assert (Ht1 : t + 1 <= Qnat N).
  { change (t + 1 <= inject_Z (Z.of_nat N)). unfold t. change 1 with (inject_Z 1).
    rewrite <- inject_Z_plus, <- Zle_Qle. lia. }
  assert (Hf0 : 4 <= f) by (unfold f; change 4 with (inject_Z 4); rewrite <- Zle_Qle; lia).
  assert (Hf1 : f <= 6) by (unfold f; change 6 with (inject_Z 6); rewrite <- Zle_Qle; lia).
  assert (Hlo : 0 <= t * a) by (apply Qmult_le_0_compat; lra).
  assert (Hhi : 0 <= (Qnat N - (t + 1)) * a) by (apply Qmult_le_0_compat; lra).
  assert (X : (Qnat N - (t + 1)) * a == a * Qnat N - t * a - a) by ring.
  rewrite X, Han in Hhi.
  assert (a / 2 == a * (1#2)) by field.
  split; lra.
Qed.

Lemma spin_session_bounds_witness :
  exists s, animation (spin init (1#3) (1#2) (9#10) 7) = Some s /\
    (0 <= s_targetIndex s < Z.of_nat (List.length (names init)))%Z /\
    (exists k : Z, s_duration s = 4200 + inject_Z k /\ (0 <= k < 1200)%Z) /\
    s_start s = 7 /\
    s_startRotation s = js_rem (rotation init) 360 /\
    1350 < s_endRotation s - rotation init /\ s_endRotation s - rotation init < 2430.
Proof.
  apply (spin_session_bounds init (1#3) (1#2) (9#10) 7 reach_init eq_refl);
    split; vm_compute; (reflexivity || discriminate).
Defined.

Lemma frame_ends_iff (s : session) (now : Q) :
  0 < s_duration s ->
  Qle_bool 1 (frame_t s now) = true <-> s_start s + s_duration s <= now.
Proof.
  intros Hd. unfold frame_t. rewrite min1_ge1. split; intros H.
  - assert (E : (now - s_start s) / s_duration s * s_duration s == now - s_start s) by (field; lra).
    assert (1 * s_duration s <= (now - s_start s) / s_duration s * s_duration s)
      by (apply Qmult_le_compat_r; lra).
    lra.
  - apply Qle_shift_div_l; lra.
Qed.

(** A spin in progress ends at the first animation frame whose time is at
    least [start + duration]: that frame sets the rotation to exactly
    [endRotation], clears the spinning flag and re-enables both buttons;
    an earlier frame keeps the spin going with the same session. *)
Theorem spin_finishes_at_duration (st : state) (s : session) (now : Q) :
  reachable st -> animation st = Some s ->
  (s_start s + s_duration s <= now ->
   animation (animate st now) = None /\
   rotation (animate st now) == s_endRotation s /\
   spinning (animate st now) = false /\
   spinBtn_disabled (animate st now) = false /\
   updateBtn_disabled (animate st now) = false) /\
  (now < s_start s + s_duration s ->
   animation (animate st now) = Some s /\ spinning (animate st now) = true).
Proof.
  intros R A. destruct (reachable_Inv st R) as (_ & _ & H3 & _ & H5).
  destruct (H5 s A) as (_ & _ & Hd).
  split; intros H.
  - apply (frame_ends_iff s now Hd) in H.
    rewrite (rotation_animate_some st s now A), (frame_rotation_final s now H).
    unfold animate. rewrite A, H. repeat split; reflexivity.
  - assert (F : Qle_bool 1 (frame_t s now) = false).
    { destruct (Qle_bool 1 (frame_t s now)) eqn:F; [| reflexivity].
      apply (frame_ends_iff s now Hd) in F. lra. }
    unfold animate. rewrite A, F. cbn [set_rotation animation spinning].
    split; [exact A |].
    destruct (spinning st) eqn:S; [reflexivity |]. rewrite A in H3. discriminate (proj1 H3 eq_refl).
Qed.

Lemma spin_finishes_at_duration_witness :
  reachable (spin init 0 0 0 0) /\
  animation (spin init 0 0 0 0) = Some first_session /\
  s_start first_session + s_duration first_session <= 4200 /\
  spinning (animate (spin init 0 0 0 0) 4200) = false /\
  spinning (animate (spin init 0 0 0 0) 4199) = true.
Proof.
  assert (R : reachable (spin init 0 0 0 0))
    by (apply reach_spin; [apply reach_init | lra ..]).
  assert (A : animation (spin init 0 0 0 0) = Some first_session) by reflexivity.
  assert (T : s_start first_session + s_duration first_session <= 4200)
    by (vm_compute; discriminate).
  destruct (spin_finishes_at_duration _ _ 4200 R A) as [P _].
  destruct (spin_finishes_at_duration _ _ 4199 R A) as [_ Q'].
  split; [exact R | split; [exact A | split; [exact T | split]]].
  - exact (proj1 (proj2 (proj2 (P T)))).
  - apply (proj2 (Q' ltac:(vm_compute; reflexivity))).
Defined.

Lemma finish_index_comp (r r' : Q) (N : nat) :
  r == r' -> finish_index r N = finish_index r' N.
Proof. intros E. unfold finish_index. apply Qfloor_comp. now rewrite E. Qed.

(** From a rotation of whole turns, the slice reported after a spin aimed at
    [targetIndex] is [N - 1 - targetIndex]. *)
Lemma finish_index_whole_turns (r0 : Q) (m : Z) (N : nat) (targetIndex fullRot : Z) :
  r0 == 360 * inject_Z m -> (0 <= m)%Z -> (1 <= N)%nat ->
  (0 <= targetIndex < Z.of_nat N)%Z -> (1 <= fullRot)%Z ->
  finish_index (endRotation r0 N targetIndex fullRot) N = (Z.of_nat N - 1 - targetIndex)%Z.
Proof.
  intros Hr Hm HN Hti Hfr.
  pose proof (Qnat_pos N HN) as Hn.
  set (a := 360 / Qnat N).
  set (t := inject_Z targetIndex).
  assert (Ha : 0 < a) by (unfold a; apply Qlt_shift_div_l; lra).
  assert (Han : a * Qnat N == 360) by (unfold a; field; lra).
  assert (Ht0 : 0 <= t) by (apply inject_Z_nonneg; lia).
  assert (Ht1 : t + 1 <= Qnat N).
  { change (t + 1 <= inject_Z (Z.of_nat N)). unfold t. change 1 with (inject_Z 1).
    rewrite <- inject_Z_plus, <- Zle_Qle. lia. }
  set (y := t * a + a * (1#2) - 90).
  assert (Hy0 : -90 < y).
  { assert (0 <= t * a) by (apply Qmult_le_0_compat; lra). unfold y. lra. }
  assert (Hy1 : y < 270).
  { assert (P : 0 <= (Qnat N - (t + 1)) * a) by (apply Qmult_le_0_compat; lra).
    assert (X : (Qnat N - (t + 1)) * a == a * Qnat N - t * a - a) by ring.
    rewrite X, Han in P. unfold y. lra. }
  assert (Ey : endRotation r0 N targetIndex fullRot == y + 360 * inject_Z (fullRot + m)).
  { unfold endRotation, finalRotation, targetMidAngle, anglePer. fold a. fold t.
    rewrite Hr, inject_Z_plus. unfold y. field. }
  rewrite (finish_index_comp _ _ N Ey). unfold finish_index.
  rewrite (finish_index_turns y (fullRot + m) N Hy0 Hy1 ltac:(lia)).
  fold a.
  assert (E : (270 - y) / a == Qnat N - t - (1#2)) by (unfold y, a; field; lra).
  rewrite E. apply Qfloor_unique; rewrite !inject_Z_sub; fold t;
    change (inject_Z (Z.of_nat N)) with (Qnat N); change (inject_Z 1) with 1; lra.
Qed.

(** A spin run to its end: the rotation reached is [endRotation], and the
    result text names the slice [finishSpin] reads from it. *)
Lemma spin_run_to_end (st : state) (rnd1 rnd2 rnd3 now now' : Q) :
  reachable st -> spinning st = false ->
  0 <= rnd1 < 1 -> 0 <= rnd2 < 1 -> 0 <= rnd3 < 1 -> now + 5400 <= now' ->
  let N := List.length (names st) in
  let st' := animate (spin st rnd1 rnd2 rnd3 now) now' in
  (1 <= N)%nat /\ (0 <= Qfloor (rnd1 * Qnat N) < Z.of_nat N)%Z /\ (0 <= Qfloor (rnd2 * 3))%Z /\
  rotation st' == endRotation (rotation st) N (Qfloor (rnd1 * Qnat N)) (4 + Qfloor (rnd2 * 3)) /\
  spinning st' = false /\
  finish_index (rotation st') N
  = finish_index (endRotation (rotation st) N (Qfloor (rnd1 * Qnat N)) (4 + Qfloor (rnd2 * 3))) N /\
  resultText st' = ("Winner: " ++ name_or_dash (names st) (finish_index (rotation st') N))%string.
Proof.
  intros R Hs [R1a R1b] [R2a R2b] [R3a R3b] Hnow N st'.
  destruct (reachable_Inv st R) as (Hn & _).
  assert (HN : (1 <= N)%nat) by (unfold N; destruct (names st); [contradiction | simpl; lia]).
  pose proof (Qnat_pos N HN) as Hq.
  set (ti := Qfloor (rnd1 * Qnat N)).
  assert (Ti0 : (0 <= ti)%Z) by (apply Qfloor_nonneg; nra).
  assert (Ti1 : (ti < Z.of_nat N)%Z).
  { apply Qfloor_lt_nat. change (inject_Z (Z.of_nat N)) with (Qnat N). nra. }
  assert (F0 : (0 <= Qfloor (rnd2 * 3))%Z) by (apply Qfloor_nonneg; lra).
  assert (D0 : (0 <= Qfloor (rnd3 * 1200))%Z) by (apply Qfloor_nonneg; lra).
  assert (D1 : (Qfloor (rnd3 * 1200) < 1200)%Z) by (apply Qfloor_lt_nat; unfold inject_Z; lra).
  pose proof (spin_accepted st rnd1 rnd2 rnd3 now Hs Hn) as A. fold N ti in A.
  set (sess := mkSession ti (4200 + inject_Z (Qfloor (rnd3 * 1200))) now (js_rem (rotation st) 360)
                 (endRotation (rotation st) N ti (4 + Qfloor (rnd2 * 3)))) in A.
  assert (Fin : Qle_bool 1 (frame_t sess now') = true).
  { apply frame_ends_iff; unfold sess; cbn [s_start s_duration].
    - apply inject_Z_nonneg in D0. lra.
    - assert (inject_Z (Qfloor (rnd3 * 1200)) <= 1199).
      { change 1199 with (inject_Z 1199). rewrite <- Zle_Qle. lia. }
      lra. }
  split; [exact HN |]. split; [lia |]. split; [exact F0 |]. split; [| split; [| split]].
  - unfold st'. rewrite (rotation_animate_some _ sess now' A).
    exact (frame_rotation_final sess now' Fin).
  - unfold st', animate. rewrite A, Fin. reflexivity.
  - unfold st'. rewrite (rotation_animate_some _ sess now' A).
    exact (finish_index_comp _ _ N (frame_rotation_final sess now' Fin)).
  - unfold st'. rewrite (rotation_animate_some _ sess now' A).
    unfold animate. rewrite A, Fin.
    cbn [resultText finishSpin set_animation set_rotation names rotation].
    rewrite names_unchanged_by_spin. reflexivity.
Qed.

(** A spin started from a whole number of turns (rotation 0 after loading
    or after a name-list update) and run to its end reports the name at
    index [N - 1 - floor(rnd1 * N)], where [rnd1] is the first
    [Math.random()] value of the spin. Hence index [k] is reported exactly
    when [rnd1 * N] lies in [[N - 1 - k, N - k)]: every name is reported
    for an interval of [Math.random()] values of the same width 1/N. *)
Theorem spin_winner_distribution (st : state) (m : Z) (rnd1 rnd2 rnd3 now now' : Q) :
  reachable st -> spinning st = false -> rotation st == 360 * inject_Z m ->
  0 <= rnd1 < 1 -> 0 <= rnd2 < 1 -> 0 <= rnd3 < 1 -> now + 5400 <= now' ->
  let N := List.length (names st) in
  let st' := animate (spin st rnd1 rnd2 rnd3 now) now' in
  finish_index (rotation st') N = (Z.of_nat N - 1 - Qfloor (rnd1 * Qnat N))%Z /\
  resultText st'
  = ("Winner: " ++ name_or_dash (names st) (Z.of_nat N - 1 - Qfloor (rnd1 * Qnat N)))%string /\
  (forall k, finish_index (rotation st') N = k <->
             inject_Z (Z.of_nat N - 1 - k) <= rnd1 * Qnat N /\
             rnd1 * Qnat N < inject_Z (Z.of_nat N - k)).
Proof.
  intros R Hs Hr R1 R2 R3 Hnow N st'.
  destruct (spin_run_to_end st rnd1 rnd2 rnd3 now now' R Hs R1 R2 R3 Hnow)
    as (HN & Ti & F0 & _ & _ & Fi & Txt). fold N st' in HN, Ti, Fi, Txt.
  destruct (reachable_Inv st R) as (_ & _ & H3 & H4 & _).
  assert (Hm : (0 <= m)%Z).
  { assert (0 <= rotation st) by (apply H4, H3, Hs).
    apply Z.nlt_ge. intro C. assert (inject_Z m <= -1).
    { change (-1) with (inject_Z (-1)). rewrite <- Zle_Qle. lia. }
    lra. }
  set (ti := Qfloor (rnd1 * Qnat N)) in *.
  assert (Main : finish_index (rotation st') N = (Z.of_nat N - 1 - ti)%Z).
  { rewrite Fi. apply (finish_index_whole_turns _ m); [exact Hr | exact Hm | exact HN | lia | lia]. }
  split; [exact Main | split].
  - rewrite Txt, Main. reflexivity.
  - intros k. rewrite Main. split.
    + intros <-. pose proof (Qfloor_le (rnd1 * Qnat N)) as L1.
      pose proof (Qlt_floor (rnd1 * Qnat N)) as L2. fold ti in L1, L2.
      rewrite !inject_Z_sub. rewrite inject_Z_plus in L2.
      change (inject_Z 1) with 1 in *. lra.
    + intros [K1 K2]. assert (Hf : ti = (Z.of_nat N - 1 - k)%Z).
      { apply Qfloor_unique; [exact K1 |].
        rewrite !inject_Z_sub in *. change (inject_Z 1) with 1 in *. lra. }
      lia.
Qed.

Lemma spin_winner_distribution_witness :
  reachable init /\ rotation init == 360 * inject_Z 0 /\
  resultText (animate (spin init (1#2) 0 0 0) 5400) = "Winner: Diana"%string.
Proof.
  assert (R : reachable init) by apply reach_init.
  assert (Hr : rotation init == 360 * inject_Z 0) by reflexivity.
  split; [exact R | split; [exact Hr |]].
  destruct (spin_winner_distribution init 0 (1#2) 0 0 0 5400 R eq_refl Hr
              ltac:(lra) ltac:(lra) ltac:(lra) ltac:(lra)) as [_ [P _]].
  rewrite P. vm_compute. reflexivity.
Defined.

(** ** Label wrapping *)

Lemma line_of_words_snoc (g : list string) (w : string) :
  line_of_words (g ++ [w]) = ((line_of_words g ++ w) ++ " ")%string.
Proof. unfold line_of_words. now rewrite fold_left_app. Qed.

Lemma Qnat_succ (i : nat) : Qnat (S i) == Qnat i + 1.
Proof. unfold Qnat. rewrite Nat2Z.inj_succ, <- Z.add_1_r, inject_Z_plus. reflexivity. Qed.

Lemma wrap_loop_coords (measureText : string -> Q) (x maxWidth lineHeight : Q)
  (ws : list string) (n : nat) (line : string) (lineY : Q) (i : nat) (s : string) (x' y' : Q) :
  nth_error (wrap_loop measureText x maxWidth lineHeight ws n line lineY) i = Some (s, x', y') ->
  x' = x /\ y' == lineY + Qnat i * lineHeight.
Proof.
  revert n line lineY i. induction ws as [| w ws IH]; intros n line lineY i H; simpl in H.
  - destruct i as [| i]; simpl in H; [| destruct i; discriminate].
    injection H as <- <- <-. split; [reflexivity | unfold Qnat; simpl; ring].
  - destruct (negb _ && _).
    + destruct i as [| i]; simpl in H.
      * injection H as <- <- <-. split; [reflexivity | unfold Qnat; simpl; ring].
      * destruct (IH _ _ _ _ H) as [Hx Hy]. split; [exact Hx |].
        rewrite Hy, Qnat_succ. ring.
    + exact (IH _ _ _ _ H).
Qed.

Lemma wrap_loop_length (measureText : string -> Q) (x maxWidth lineHeight : Q)
  (ws : list string) (n : nat) (line : string) (lineY : Q) :
  (1 <= List.length (wrap_loop measureText x maxWidth lineHeight ws n line lineY) <= S (List.length ws))%nat.
Proof.
  revert n line lineY. induction ws as [| w ws IH]; intros n line lineY; simpl; [lia |].
  destruct (negb _ && _); simpl; specialize (IH (S n)); [specialize (IH (w ++ " ")%string (lineY + lineHeight)) | specialize (IH ((line ++ w) ++ " ")%string lineY)]; lia.
Qed.

Section Groups.
Variable measureText : string -> Q.
Variables x maxWidth lineHeight : Q.

Lemma line_fits_single (w : string) : line_fits measureText maxWidth [w].
Proof. intros k Hk. simpl in Hk. lia. Qed.

Lemma wrap_loop_groups (ws : list string) (n : nat) (g : list string) (lineY : Q) :
  (g = [] <-> n = 0%nat) -> g ++ ws <> [] -> line_fits measureText maxWidth g ->
  exists h G,
    List.concat ((g ++ h) :: G) = g ++ ws /\
    Forall (fun k => k <> []) ((g ++ h) :: G) /\
    map (fun c => fst (fst c)) (wrap_loop measureText x maxWidth lineHeight ws n (line_of_words g) lineY)
    = map (fun k => trim (line_of_words k)) ((g ++ h) :: G) /\
    Forall (line_fits measureText maxWidth) ((g ++ h) :: G) /\
    breaks_forced measureText maxWidth ((g ++ h) :: G).
Proof.
  revert n g lineY. induction ws as [| w ws IH]; intros n g lineY Hg0 Hne Hfit.
  - exists [], []. rewrite !app_nil_r in *. simpl. rewrite app_nil_r.
    repeat split; auto.
  - simpl. destruct (negb (Qle_bool (measureText ((line_of_words g ++ w) ++ " ")) maxWidth)
                      && (0 <? n)%nat) eqn:B.
    + apply andb_true_iff in B as [B1 B2]. apply Nat.ltb_lt in B2.
      assert (Hg : g <> []) by (intros E; apply Hg0 in E; lia).
      destruct (IH (S n) [w] (lineY + lineHeight) ltac:(split; discriminate) ltac:(discriminate)
                  (line_fits_single w)) as (h & G & C & NE & M & F & BF).
      change (line_of_words [w]) with (w ++ " ")%string in M.
      exists [], ((w :: h) :: G). rewrite app_nil_r. simpl app in *.
      split; [simpl; simpl in C; now rewrite C |].
      split; [constructor; assumption |].
      split; [simpl; now rewrite M |].
      split; [constructor; assumption |].
      simpl. split; [| exact BF].
      rewrite line_of_words_snoc. apply Qnot_le_lt. intros L.
      apply Qle_bool_iff in L. now rewrite L in B1.
    + assert (Hfit' : line_fits measureText maxWidth (g ++ [w])).
      { intros k Hk. rewrite length_app in Hk. simpl in Hk.
        destruct (Nat.eq_dec k (S (List.length g))) as [E | E].
        - subst k. rewrite firstn_all2 by (rewrite length_app; simpl; lia).
          rewrite line_of_words_snoc.
          destruct (Qle_bool (measureText ((line_of_words g ++ w) ++ " ")) maxWidth) eqn:L.
          + now apply Qle_bool_iff.
          + simpl in B. apply Nat.ltb_ge in B.
            assert (n = 0%nat) as E0 by lia. apply Hg0 in E0. subst g. simpl in Hk. lia.
        - rewrite firstn_app, (proj2 (Nat.sub_0_le k (List.length g))) by lia.
          rewrite app_nil_r. apply Hfit. lia. }
      rewrite <- line_of_words_snoc.
      destruct (IH (S n) (g ++ [w]) lineY ltac:(destruct g; split; discriminate)
                  ltac:(destruct g; discriminate) Hfit') as (h & G & C & NE & M & F & BF).
      assert (E : forall l, (g ++ [w]) ++ l = g ++ w :: l) by (intros l; now rewrite <- app_assoc).
      rewrite !E in C, NE, M, F, BF. rewrite (E ws) in C.
      exists (w :: h), G. exact (conj C (conj NE (conj M (conj F BF)))).
Qed.

End Groups.

Lemma line_of_words_cons (a w : string) (ws : list string) :
  fold_left (fun line w => ((line ++ w) ++ " ")%string) ws ((a ++ w) ++ " ")%string
  = (a ++ (String.concat " " (w :: ws) ++ " "))%string.
Proof.
  revert a w. induction ws as [| v ws IH]; intros a w.
  - simpl. now rewrite string_app_assoc.
  - simpl fold_left. rewrite IH.
    change (String.concat " " (w :: v :: ws)) with (w ++ " " ++ String.concat " " (v :: ws))%string.
    apply list_ascii_of_string_inj. rewrite !list_ascii_of_string_app.
    now rewrite <- !app_assoc.
Qed.

Lemma line_of_words_concat (g : list string) :
  g <> [] -> line_of_words g = (String.concat " " g ++ " ")%string.
Proof.
  intros H. destruct g as [| w ws]; [contradiction |].
  unfold line_of_words. simpl fold_left. exact (line_of_words_cons EmptyString w ws).
Qed.

Lemma trim_trailing_space (s : string) : trim s = s -> trim (s ++ " ") = s.
Proof.
  intros H. apply trim_fixed in H as [H1 H2].
  apply list_ascii_of_string_inj. rewrite trim_list, list_ascii_of_string_app.
  destruct (list_ascii_of_string s) as [| c L] eqn:EL; [reflexivity |].
  rewrite (drop_spaces_app (c :: L) _ ltac:(discriminate) H1).
  change (list_ascii_of_string " ") with [" "%char]. rewrite rev_app_distr.
  change (rev [" "%char] ++ rev (c :: L)) with (" "%char :: rev (c :: L)).
  change (drop_spaces (" "%char :: rev (c :: L))) with (drop_spaces (rev (c :: L))).
  rewrite H2. apply rev_involutive.
Qed.

Lemma drop_spaces_nonspace (l : list ascii) :
  Forall (fun c => is_js_space c = false) l -> drop_spaces l = l.
Proof. intros H. apply drop_spaces_fixed. destruct H; [exact I | exact H]. Qed.

Lemma concat_last_word (sep : string) (g : list string) :
  g <> [] -> exists t, String.concat sep g = (t ++ last g EmptyString)%string.
Proof.
  induction g as [| w ws IH]; intros H; [contradiction |].
  destruct ws as [| v vs]; [now exists EmptyString |].
  destruct (IH ltac:(discriminate)) as [t Ht].
  exists (w ++ sep ++ t)%string.
  change (String.concat sep (w :: v :: vs)) with (w ++ sep ++ String.concat sep (v :: vs))%string.
  rewrite Ht. change (last (w :: v :: vs) EmptyString) with (last (v :: vs) EmptyString).
  now rewrite !string_app_assoc.
Qed.

Lemma last_In_ne {A : Type} (l : list A) (d : A) : l <> [] -> In (last l d) l.
Proof.
  induction l as [| a l IH]; intros H; [contradiction |].
  destruct l as [| b l]; [now left | right; apply IH; discriminate].
Qed.

Lemma trim_concat_plain (g : list string) :
  g <> [] -> Forall plain_word g -> trim (String.concat " " g) = String.concat " " g.
Proof.
  intros Hne Hp. apply trim_fixed. split.
  - destruct g as [| w ws]; [contradiction |].
    destruct (concat_first " " w ws) as [t Ht]. rewrite Ht, list_ascii_of_string_app.
    inversion Hp as [| ? ? [Hw Hs] _]; subst.
    apply drop_spaces_app; [now apply list_ascii_of_string_nil | now apply drop_spaces_nonspace].
  - destruct (concat_last_word " " g Hne) as [t Ht]. rewrite Ht, list_ascii_of_string_app, rev_app_distr.
    assert (Hl : plain_word (last g EmptyString)).
    { apply Forall_forall with (1 := Hp). destruct g as [| w ws]; [contradiction |].
      apply last_In_ne. discriminate. }
    destruct Hl as [Hw Hs].
    apply drop_spaces_app.
    + intros E. apply (f_equal (@rev ascii)) in E. rewrite rev_involutive in E.
      exact (list_ascii_of_string_nil _ Hw E).
    + apply drop_spaces_nonspace. now apply Forall_rev.
Qed.

Lemma concat_app_sep (sep : string) (l1 l2 : list string) :
  l1 <> [] -> l2 <> [] ->
  String.concat sep (l1 ++ l2) = (String.concat sep l1 ++ sep ++ String.concat sep l2)%string.
Proof.
  induction l1 as [| w ws IH]; intros H1 H2; [contradiction |].
  destruct ws as [| v vs].
  - simpl app. destruct l2; [contradiction | reflexivity].
  - change ((w :: v :: vs) ++ l2) with (w :: ((v :: vs) ++ l2)).
    change (String.concat sep (w :: (v :: vs) ++ l2))
      with (w ++ sep ++ String.concat sep ((v :: vs) ++ l2))%string.
    change (String.concat sep (w :: v :: vs)) with (w ++ sep ++ String.concat sep (v :: vs))%string.
    rewrite IH by (discriminate || exact H2).
    now rewrite !string_app_assoc.
Qed.

Lemma concat_groups (G : list (list string)) :
  Forall (fun k => k <> []) G ->
  String.concat " " (map (String.concat " ") G) = String.concat " " (List.concat G).
Proof.
  induction G as [| g G IH]; intros H; [reflexivity |].
  inversion H as [| ? ? Hg HG]; subst.
  destruct G as [| g' G'].
  - simpl. now rewrite app_nil_r.
  - inversion HG as [| ? ? Hg' _]; subst.
    change (map (String.concat " ") (g :: g' :: G'))
      with (String.concat " " g :: map (String.concat " ") (g' :: G')).
    change (String.concat " " (String.concat " " g :: map (String.concat " ") (g' :: G')))
      with (String.concat " " g ++ " " ++ String.concat " " (map (String.concat " ") (g' :: G')))%string.
    rewrite (IH HG).
    change (List.concat (g :: g' :: G')) with (g ++ List.concat (g' :: G')).
    rewrite (concat_app_sep " " g (List.concat (g' :: G'))); [reflexivity | exact Hg |].
    destruct g'; [contradiction | discriminate].
Qed.

Lemma wrapText_first_word (measureText : string -> Q) (text : string) (x y maxWidth lineHeight : Q) :
  exists w ws, split_on " "%char text = w :: ws /\
  wrapText measureText text x y maxWidth lineHeight
  = wrap_loop measureText x maxWidth lineHeight ws 1 (w ++ " ")%string y.
Proof.
  unfold wrapText. destruct (split_on " "%char text) as [| w ws] eqn:E.
  - exfalso. exact (split_on_not_nil _ _ E).
  - exists w, ws. split; [reflexivity |]. simpl.
    rewrite andb_false_r. reflexivity.
Qed.

Lemma wrapText_groups (measureText : string -> Q) (text : string) (x y maxWidth lineHeight : Q) :
  exists G,
    List.concat G = split_on " "%char text /\
    Forall (fun g => g <> []) G /\
    map (fun c => fst (fst c)) (wrapText measureText text x y maxWidth lineHeight)
    = map (fun g => trim (line_of_words g)) G /\
    Forall (line_fits measureText maxWidth) G /\
    breaks_forced measureText maxWidth G.
Proof.
  destruct (wrap_loop_groups measureText x maxWidth lineHeight (split_on " "%char text) 0 [] y
              ltac:(tauto) (split_on_not_nil _ _) ltac:(intros k Hk; simpl in Hk; lia))
    as (h & G & C & NE & M & F & BF).
  exists (h :: G). exact (conj C (conj NE (conj M (conj F BF)))).
Qed.

(** [wrapText] lays its lines out from [(x, y)] downwards: the [i]-th call
    of [fillText] (from 0) is at [(x, y + i * lineHeight)]. It draws at least
    one line and never more lines than [text.split(' ')] has words. *)
Theorem wrapText_layout (measureText : string -> Q) (text : string) (x y maxWidth lineHeight : Q) :
  let out := wrapText measureText text x y maxWidth lineHeight in
  (1 <= List.length out <= List.length (split_on " "%char text))%nat /\
  (forall i s x' y', nth_error out i = Some (s, x', y') ->
                     x' = x /\ y' == y + Qnat i * lineHeight).
Proof.
  intros out. split.
  - destruct (wrapText_first_word measureText text x y maxWidth lineHeight) as (w & ws & Ew & Eo).
    unfold out. rewrite Eo, Ew.
    pose proof (wrap_loop_length measureText x maxWidth lineHeight ws 1 (w ++ " ")%string y).
    simpl List.length. lia.
  - intros i s x' y' H. exact (wrap_loop_coords _ _ _ _ _ _ _ _ _ _ _ _ H).
Qed.

Lemma wrapText_layout_witness :
  nth_error (wrapText (fun s => inject_Z (Z.of_nat (String.length s))) "Bo Li Chen" 0 0 6 10) 1%nat
  = Some ("Chen"%string, 0, 10) /\ 10 == 0 + Qnat 1 * 10.
Proof.
  assert (E : nth_error (wrapText (fun s => inject_Z (Z.of_nat (String.length s))) "Bo Li Chen" 0 0 6 10) 1%nat
              = Some ("Chen"%string, 0, 10)) by (vm_compute; reflexivity).
  split; [exact E |].
  exact (proj2 (proj2 (wrapText_layout _ "Bo Li Chen" 0 0 6 10) 1%nat _ _ _ E)).
Defined.

(** [wrapText] breaks greedily at spaces: the words of [text.split(' ')]
    are cut into non-empty runs of consecutive words, one per line, each
    line being its run as [line] accumulates it ([word + ' '] per word),
    trimmed. Within a run every prefix of two or more words passes the width
    test, and each run ends only where adding the next word fails it; a run
    of one word may be wider than [maxWidth], and no word is ever cut. *)
Theorem wrapText_greedy_lines (measureText : string -> Q) (text : string) (x y maxWidth lineHeight : Q) :
  exists G,
    List.concat G = split_on " "%char text /\
    Forall (fun g => g <> []) G /\
    map (fun c => fst (fst c)) (wrapText measureText text x y maxWidth lineHeight)
    = map (fun g => trim (line_of_words g)) G /\
    Forall (line_fits measureText maxWidth) G /\
    breaks_forced measureText maxWidth G.
Proof. apply wrapText_groups. Qed.

Lemma wrap_lines_rejoin (measureText : string -> Q) (text : string) (x y maxWidth lineHeight : Q) :
  Forall plain_word (split_on " "%char text) ->
  let lines := map (fun c => fst (fst c)) (wrapText measureText text x y maxWidth lineHeight) in
  String.concat " " lines = text /\ Forall (fun s => s <> EmptyString) lines.
Proof.
  intros Hp lines.
  destruct (wrapText_groups measureText text x y maxWidth lineHeight) as (G & C & NE & M & _ & _).
  assert (Hg : forall g, In g G -> g <> [] /\ Forall plain_word g).
  { intros g Hin. split; [exact (proj1 (Forall_forall _ _) NE g Hin) |].
    apply Forall_forall. intros w Hw. apply (proj1 (Forall_forall _ _) Hp).
    rewrite <- C. apply in_concat. now exists g. }
  assert (T : map (fun g => trim (line_of_words g)) G = map (String.concat " ") G).
  { apply map_ext_in. intros g Hin. destruct (Hg g Hin) as [Hne Hpl].
    rewrite line_of_words_concat by exact Hne.
    apply trim_trailing_space, trim_concat_plain; assumption. }
  unfold lines. rewrite M, T. split.
  - rewrite (concat_groups G NE), C. exact (split_on_join " "%char text).
  - apply Forall_forall. intros l Hl. apply in_map_iff in Hl as (g & <- & Hin).
    destruct (Hg g Hin) as [Hne Hpl].
    destruct g as [| w ws]; [contradiction |].
    destruct (concat_first " " w ws) as [t Ht]. rewrite Ht.
    inversion Hpl as [| ? ? [Hw _] _]; subst.
    destruct w; [contradiction | discriminate].
Qed.

(** When [text] is words without whitespace separated by single spaces, the
    lines of [wrapText] are non-empty and joined with single spaces give
    [text] back. *)
Theorem wrapText_words_roundtrip (measureText : string -> Q) (text : string) (x y maxWidth lineHeight : Q) :
  Forall plain_word (split_on " "%char text) ->
  let lines := map (fun c => fst (fst c)) (wrapText measureText text x y maxWidth lineHeight) in
  String.concat " " lines = text /\ Forall (fun s => s <> EmptyString) lines.
Proof. apply wrap_lines_rejoin. Qed.

Lemma wrapText_words_roundtrip_witness :
  Forall plain_word (split_on " "%char "Bo Li Chen") /\
  String.concat " "
    (map (fun c => fst (fst c))
       (wrapText (fun s => inject_Z (Z.of_nat (String.length s))) "Bo Li Chen" 0 0 6 10))
  = "Bo Li Chen"%string.
Proof.
  assert (H : Forall plain_word (split_on " "%char "Bo Li Chen")).
  { vm_compute. repeat constructor; discriminate. }
  split; [exact H |].
  exact (proj1 (wrapText_words_roundtrip _ "Bo Li Chen" 0 0 6 10 H)).
Defined.

(** ** Wheel drawing *)

Section DrawWheelProofs.
Variable size : Q.
Variables cosPi sinPi : Q -> Q.
Variable measureText : string -> Q.

Lemma fillText_map_save_depth (l : list (string * Q * Q)) (d : nat) (rest : list canvas_cmd) :
  save_depth d (map (fun c => FillText (fst (fst c)) (snd (fst c)) (snd c)) l ++ rest) = save_depth d rest.
Proof. induction l as [| c l IH]; [reflexivity | exact IH]. Qed.

Lemma fillText_map_arcs (l : list (string * Q * Q)) (rest : list canvas_cmd) :
  arcs_of (map (fun c => FillText (fst (fst c)) (snd (fst c)) (snd c)) l ++ rest) = arcs_of rest.
Proof. induction l as [| c l IH]; [reflexivity | exact IH]. Qed.

Lemma fillText_map_fills (l : list (string * Q * Q)) (rest : list canvas_cmd) :
  fills_of (map (fun c => FillText (fst (fst c)) (snd (fst c)) (snd c)) l ++ rest) = fills_of rest.
Proof. induction l as [| c l IH]; [reflexivity | exact IH]. Qed.

Lemma fillText_map_texts (l : list (string * Q * Q)) (rest : list canvas_cmd) :
  texts_of (map (fun c => FillText (fst (fst c)) (snd (fst c)) (snd c)) l ++ rest)
  = map (fun c => fst (fst c)) l ++ texts_of rest.
Proof. induction l as [| c l IH]; [reflexivity | simpl; now rewrite IH]. Qed.

Lemma slice_cmds_block (names : list string) (anglePer : Q) (i : nat) (label : string) :
  nth_error names i = Some label ->
  exists c, slice_cmds size cosPi sinPi measureText names anglePer i = Some c /\
  forall rest d,
    save_depth d (c ++ rest) = save_depth d rest /\
    arcs_of (c ++ rest) = (radius size, Qnat i * anglePer, Qnat i * anglePer + anglePer) :: arcs_of rest /\
    fills_of (c ++ rest) = slice_colour i :: fills_of rest /\
    texts_of (c ++ rest) = label_lines size measureText label ++ texts_of rest.
Proof.
  intros H. unfold slice_cmds. rewrite H. eexists. split; [reflexivity |].
  intros rest d. unfold label_lines.
  set (L := wrapText measureText label 0 0 _ _).
  set (F := map (fun c => FillText (fst (fst c)) (snd (fst c)) (snd c)) L).
  rewrite <- !app_assoc. fold (slice_colour i).
  cbn [app save_depth arcs_of fills_of texts_of].
  unfold F. rewrite fillText_map_save_depth, fillText_map_arcs, fillText_map_fills, fillText_map_texts.
  repeat split; reflexivity.
Qed.

Lemma nth_error_skipn_cons {A : Type} (l : list A) (i : nat) (x : A) :
  nth_error l i = Some x -> skipn i l = x :: skipn (S i) l.
Proof.
  revert l. induction i as [| i IH]; intros l H; destruct l as [| y l]; try discriminate.
  - injection H as ->. reflexivity.
  - exact (IH l H).
Qed.

Lemma slices_loop_blocks (names : list string) (anglePer : Q) (count i : nat) :
  (i + count <= List.length names)%nat ->
  exists body, slices_loop size cosPi sinPi measureText names anglePer i count = Some body /\
  forall rest d,
    save_depth d (body ++ rest) = save_depth d rest /\
    arcs_of (body ++ rest)
    = map (fun j => (radius size, Qnat j * anglePer, Qnat j * anglePer + anglePer)) (seq i count)
      ++ arcs_of rest /\
    fills_of (body ++ rest) = map slice_colour (seq i count) ++ fills_of rest /\
    texts_of (body ++ rest) = List.concat (map (label_lines size measureText) (firstn count (skipn i names))) ++ texts_of rest.
Proof.
  revert i. induction count as [| count IH]; intros i Hle.
  - exists []. split; [reflexivity |]. intros rest d. simpl. repeat split; reflexivity.
  - destruct (nth_error names i) as [label |] eqn:Hn.
    2:{ apply nth_error_None in Hn. lia. }
    destruct (slice_cmds_block names anglePer i label Hn) as (c & Hc & Pc).
    destruct (IH (S i) ltac:(lia)) as (body & Hb & Pb).
    exists (c ++ body). split; [simpl; now rewrite Hc, Hb |].
    intros rest d. rewrite <- app_assoc.
    destruct (Pc (body ++ rest) d) as (S1 & A1 & F1 & T1).
    destruct (Pb rest d) as (S2 & A2 & F2 & T2).
    rewrite (nth_error_skipn_cons names i label Hn).
    rewrite S1, S2, A1, A2, F1, F2, T1, T2. simpl. rewrite app_assoc. repeat split; reflexivity.
Qed.

Lemma drawWheel_blocks (names : list string) (r : Q) :
  names <> [] ->
  let N := List.length names in
  let anglePer := 2 / Qnat N in
  exists cmds, drawWheel size cosPi sinPi measureText names r = Some cmds /\
    save_depth 0 cmds = Some 0%nat /\
    arcs_of cmds
    = map (fun j => (radius size, Qnat j * anglePer, Qnat j * anglePer + anglePer)) (seq 0 N)
      ++ [(radius size + 4, 0, 2)] /\
    fills_of cmds = map slice_colour (seq 0 N) /\
    texts_of cmds = List.concat (map (label_lines size measureText) names).
Proof.
  intros Hne N anglePer.
  assert (HN : Nat.max 1 N = N) by (unfold N; destruct names; [contradiction | simpl; lia]).
  destruct (slices_loop_blocks names anglePer N 0 ltac:(unfold N; lia)) as (body & Hb & Pb).
  unfold drawWheel. fold N. rewrite HN. fold anglePer. rewrite Hb.
  eexists. split; [reflexivity |].
  set (suffix := [BeginPath; Arc 0 0 (radius size + 4) 0 2; LineWidth 6;
                  StrokeStyle "rgba(255,255,255,0.8)"; Stroke; Restore]).
  destruct (Pb suffix 1%nat) as (S1 & A1 & F1 & T1).
  cbn [app save_depth arcs_of fills_of texts_of].
  rewrite S1, A1, F1, T1. rewrite skipn_O, firstn_all2 by (unfold N; lia).
  unfold suffix. cbn. rewrite !app_nil_r. repeat split; reflexivity.
Qed.

End DrawWheelProofs.

Lemma mod2_even (j : nat) : (j mod 2 =? 0)%nat = Nat.even j.
Proof.
  induction j as [j IH] using lt_wf_ind. destruct j as [| [| k]]; [reflexivity | reflexivity |].
  assert (E : (S (S k) mod 2 = k mod 2)%nat)
    by (replace (S (S k)) with (k + 1 * 2)%nat by lia; apply Nat.Div0.mod_add).
  rewrite E. simpl Nat.even. apply IH. lia.
Qed.

Lemma drawWheel_Some_nonempty (size : Q) (cosPi sinPi : Q -> Q) (measureText : string -> Q)
  (names : list string) (r : Q) (cmds : list canvas_cmd) :
  drawWheel size cosPi sinPi measureText names r = Some cmds -> names <> [].
Proof. intros H E. subst names. discriminate H. Qed.

(** [drawWheel] throws (at [names[0].split], i.e. [undefined.split]) exactly
    when [names] is empty; the program never calls it on an empty list, so
    no redraw of a reachable state throws. *)
Theorem drawWheel_fails_iff_empty (size : Q) (cosPi sinPi : Q -> Q) (measureText : string -> Q) :
  (forall names r, drawWheel size cosPi sinPi measureText names r = None <-> names = []) /\
  (forall st r, reachable st -> drawWheel size cosPi sinPi measureText (names st) r <> None).
Proof.
  assert (P : forall names r, drawWheel size cosPi sinPi measureText names r = None <-> names = []).
  { intros names r. split.
    - intros H. destruct names as [| w ws]; [reflexivity | exfalso].
      destruct (drawWheel_blocks size cosPi sinPi measureText (w :: ws) r ltac:(discriminate))
        as (cmds & E & _). rewrite E in H. discriminate.
    - intros ->. reflexivity. }
  split; [exact P |].
  intros st r R. rewrite P. exact (proj1 (reachable_Inv st R)).
Qed.

Lemma drawWheel_fails_iff_empty_witness :
  reachable init /\
  drawWheel 400 (fun _ => 0) (fun _ => 0) (fun _ => 0) (names init) 0 <> None.
Proof.
  split; [exact reach_init |].
  exact (proj2 (drawWheel_fails_iff_empty 400 (fun _ => 0) (fun _ => 0) (fun _ => 0)) init 0 reach_init).
Defined.

(** Every [ctx.save()] of [drawWheel] is matched by a later [ctx.restore()]
    and no [restore] comes first: the context is left as it was found. *)
Theorem drawWheel_save_restore_balanced (size : Q) (cosPi sinPi : Q -> Q) (measureText : string -> Q)
  (names : list string) (r : Q) (cmds : list canvas_cmd) :
  drawWheel size cosPi sinPi measureText names r = Some cmds -> save_depth 0 cmds = Some 0%nat.
Proof.
  intros H. pose proof (drawWheel_Some_nonempty _ _ _ _ _ _ _ H) as Hne.
  destruct (drawWheel_blocks size cosPi sinPi measureText names r Hne) as (cmds' & E & P & _).
  rewrite H in E. injection E as <-. exact P.
Qed.

Lemma drawWheel_save_restore_balanced_witness :
  exists cmds, drawWheel 400 (fun _ => 0) (fun _ => 0) (fun _ => 0) defaultNames 0 = Some cmds /\
  save_depth 0 cmds = Some 0%nat.
Proof.
  destruct (drawWheel 400 (fun _ => 0) (fun _ => 0) (fun _ => 0) defaultNames 0) as [cmds |] eqn:E.
  - exists cmds. split; [reflexivity |]. exact (drawWheel_save_restore_balanced _ _ _ _ _ _ _ E).
  - discriminate E.
Defined.

(** The wheel has one slice per name: the [i]-th [arc] of radius [radius]
    spans [[i * 2/N, (i + 1) * 2/N]] (angles in multiples of [Math.PI]),
    so the [N] slices follow each other round the full turn, and then comes
    the outer ring. The slices are filled alternately with [#EFB83A] (even
    [i]) and [#33D7FF] (odd [i]): neighbours differ, except the last and
    the first slice, which have the same colour exactly when [N] is odd. *)
Theorem drawWheel_slices (size : Q) (cosPi sinPi : Q -> Q) (measureText : string -> Q)
  (names : list string) (r : Q) (cmds : list canvas_cmd) :
  drawWheel size cosPi sinPi measureText names r = Some cmds ->
  let N := List.length names in
  let anglePer := 2 / Qnat N in
  arcs_of cmds
  = map (fun j => (radius size, Qnat j * anglePer, Qnat j * anglePer + anglePer)) (seq 0 N)
    ++ [(radius size + 4, 0, 2)] /\
  Qnat N * anglePer == 2 /\
  fills_of cmds = map slice_colour (seq 0 N) /\
  (forall j, (S j < N)%nat -> slice_colour j <> slice_colour (S j)) /\
  (slice_colour (N - 1) = slice_colour 0 <-> Nat.odd N = true).
Proof.
  intros H N anglePer. pose proof (drawWheel_Some_nonempty _ _ _ _ _ _ _ H) as Hne.
  destruct (drawWheel_blocks size cosPi sinPi measureText names r Hne) as (cmds' & E & _ & A & F & _).
  rewrite H in E. injection E as <-.
  assert (HN : (1 <= N)%nat) by (unfold N; destruct names; [contradiction | simpl; lia]).
  pose proof (Qnat_pos N HN) as Hq.
  split; [exact A |]. split; [unfold anglePer; field; lra |]. split; [exact F |]. split.
  - intros j _. unfold slice_colour. rewrite !mod2_even, Nat.even_succ, <- Nat.negb_even.
    destruct (Nat.even j); discriminate.
  - unfold slice_colour. rewrite !mod2_even. replace (N - 1)%nat with (Nat.pred N) by lia.
    rewrite Nat.even_pred by lia. destruct (Nat.odd N); simpl; split; congruence.
Qed.

Lemma drawWheel_slices_witness :
  exists cmds, drawWheel 400 (fun _ => 0) (fun _ => 0) (fun _ => 0) ["A"; "B"; "C"]%string 0 = Some cmds /\
  slice_colour 2 = slice_colour 0 /\ Nat.odd 3 = true.
Proof.
  destruct (drawWheel 400 (fun _ => 0) (fun _ => 0) (fun _ => 0) ["A"; "B"; "C"]%string 0) as [cmds |] eqn:E.
  - exists cmds. split; [reflexivity |].
    destruct (drawWheel_slices _ _ _ _ _ _ _ E) as (_ & _ & _ & _ & P).
    split; [apply P; reflexivity | reflexivity].
  - discriminate E.
Defined.

(** The [fillText] calls of [drawWheel] write, slice after slice, the lines
    that [wrapText] makes of [names[i]]; when each name is words without
    whitespace separated by single spaces, the lines of slice [i] joined
    with spaces give [names[i]] back. *)
Theorem drawWheel_labels (size : Q) (cosPi sinPi : Q -> Q) (measureText : string -> Q)
  (names : list string) (r : Q) (cmds : list canvas_cmd) :
  drawWheel size cosPi sinPi measureText names r = Some cmds ->
  texts_of cmds = List.concat (map (label_lines size measureText) names) /\
  (Forall (fun w => Forall plain_word (split_on " "%char w)) names ->
   map (fun w => String.concat " " (label_lines size measureText w)) names = names).
Proof.
  intros H. pose proof (drawWheel_Some_nonempty _ _ _ _ _ _ _ H) as Hne.
  destruct (drawWheel_blocks size cosPi sinPi measureText names r Hne) as (cmds' & E & _ & _ & _ & T).
  rewrite H in E. injection E as <-. split; [exact T |].
  intros Hp. clear H Hne T. induction Hp as [| w ws Hw _ IH]; [reflexivity |].
  simpl. f_equal; [exact (proj1 (wrap_lines_rejoin _ w 0 0 _ _ Hw)) | exact IH].
Qed.

Lemma drawWheel_labels_witness :
  exists cmds, drawWheel 400 (fun _ => 0) (fun _ => 0) (fun _ => 0) ["Bo Li"]%string 0 = Some cmds /\
  texts_of cmds = ["Bo Li"]%string.
Proof.
  destruct (drawWheel 400 (fun _ => 0) (fun _ => 0) (fun _ => 0) ["Bo Li"]%string 0) as [cmds |] eqn:E.
  - exists cmds. split; [reflexivity |].
    rewrite (proj1 (drawWheel_labels _ _ _ _ _ _ _ E)). vm_compute. reflexivity.
  - discriminate E.
Defined.

(** [drawWheel(rotDeg)] turns the context by [rotDeg / 180 * Math.PI] and
    draws slice [i] from [i * 2/N] to [(i + 1) * 2/N] (multiples of
    [Math.PI]); the pointer sits at 270 degrees, [3/2 * Math.PI] on the
    canvas, whose y axis points down (12 o'clock). For every rotation, also
    a negative or fractional one, the index [finishSpin] computes is a slice
    of the wheel, and the arc [drawWheel] draws for that slice contains the
    pointer direction: the name reported is the one drawn under the
    pointer. *)
Theorem winner_slice_under_pointer (size : Q) (cosPi sinPi : Q -> Q) (measureText : string -> Q)
  (names : list string) (r : Q) (cmds : list canvas_cmd) :
  drawWheel size cosPi sinPi measureText names r = Some cmds ->
  let N := List.length names in
  let i := finish_index r N in
  (0 <= i < Z.of_nat N)%Z /\
  exists a0 a1 (k : Z),
    nth_error (arcs_of cmds) (Z.to_nat i) = Some (radius size, a0, a1) /\
    r / 180 + a0 <= (3#2) + 2 * inject_Z k /\ (3#2) + 2 * inject_Z k < r / 180 + a1.
Proof.
  intros H N i. pose proof (drawWheel_Some_nonempty _ _ _ _ _ _ _ H) as Hne.
  assert (HN : (1 <= N)%nat) by (unfold N; destruct names; [contradiction | simpl; lia]).
  pose proof (Qnat_pos N HN) as Hq.
  pose proof (finish_index_range r N HN) as Hi. fold i in Hi.
  split; [exact Hi |].
  destruct (drawWheel_blocks size cosPi sinPi measureText names r Hne) as (cmds' & E & _ & A & _).
  rewrite H in E. injection E as <-. fold N in A.
  set (a := 2 / Qnat N) in A.
  set (t1 := Qtrunc (r / 360)).
  set (j := js_rem r 360).
  assert (Ej : j == r - 360 * inject_Z t1) by reflexivity.
  pose proof (js_rem_bound r) as Bj. fold j in Bj.
  set (u := 360 + pointerAngle - j).
  assert (Hu : 0 <= u) by (unfold u, pointerAngle; lra).
  set (t2 := Qtrunc (u / 360)).
  set (th := js_rem u 360).
  assert (Eth : th == u - 360 * inject_Z t2) by reflexivity.
  pose proof (js_rem_nonneg u Hu) as (Bth0 & Bth1 & _). fold th in Bth0, Bth1.
  set (AA := 360 / Qnat N).
  assert (HA : 0 < AA) by (unfold AA; apply Qlt_shift_div_l; lra).
  assert (Ei : i = Qfloor (th / AA)) by reflexivity.
  set (D := th / AA) in Ei.
  assert (ED : th == D * AA) by (unfold D; field; lra).
  pose proof (Qfloor_le D) as F1. pose proof (Qlt_floor D) as F2. rewrite <- Ei in F1, F2.
  rewrite inject_Z_plus in F2. change (inject_Z 1) with 1 in F2.
  assert (P1 : inject_Z i * AA <= th) by (rewrite ED; nra).
  assert (P2 : th < inject_Z i * AA + AA) by (rewrite ED; nra).
  assert (Ea : a == AA * (1#180)) by (unfold a, AA; field; lra).
  assert (Qi : Qnat (Z.to_nat i) = inject_Z i) by (unfold Qnat; now rewrite Z2Nat.id by lia).
  exists (Qnat (Z.to_nat i) * a), (Qnat (Z.to_nat i) * a + a), (1 + t1 - t2)%Z.
  split.
  - rewrite A, nth_error_app1 by (rewrite length_map, length_seq; lia).
    rewrite nth_error_map, nth_error_seq.
    replace (Z.to_nat i <? N)%nat with true by (symmetry; apply Nat.ltb_lt; lia).
    reflexivity.
  - rewrite Qi, Ea, !inject_Z_sub, inject_Z_plus. change (inject_Z 1) with 1.
    unfold u, pointerAngle in Eth.
    set (P := inject_Z i * AA) in P1, P2.
    assert (X : inject_Z i * (AA * (1#180)) == P * (1#180)) by (unfold P; ring).
    rewrite X.
    assert (X2 : r / 180 == r * (1#180)) by field.
    rewrite X2. split; lra.
Qed.

Lemma winner_slice_under_pointer_witness :
  exists cmds, drawWheel 400 (fun _ => 0) (fun _ => 0) (fun _ => 0) defaultNames 1372.5 = Some cmds /\
  finish_index 1372.5 8 = 7%Z /\
  exists a0 a1 (k : Z),
    nth_error (arcs_of cmds) 7 = Some (radius 400, a0, a1) /\
    1372.5 / 180 + a0 <= (3#2) + 2 * inject_Z k /\ (3#2) + 2 * inject_Z k < 1372.5 / 180 + a1.
Proof.
  destruct (drawWheel 400 (fun _ => 0) (fun _ => 0) (fun _ => 0) defaultNames 1372.5) as [cmds |] eqn:E.
  - exists cmds. split; [reflexivity |]. split; [vm_compute; reflexivity |].
    exact (proj2 (winner_slice_under_pointer _ _ _ _ _ _ _ E)).
  - discriminate E.
Defined.

(** ** The reported slice as a function of the target *)

Lemma Qfloor_add_Z (x : Q) (z : Z) : Qfloor (x + inject_Z z) = (Qfloor x + z)%Z.
Proof.
  pose proof (Qfloor_le x) as F1. pose proof (Qlt_floor x) as F2.
  rewrite inject_Z_plus in F2. change (inject_Z 1) with 1 in F2.
  apply Qfloor_unique; rewrite inject_Z_plus; lra.
Qed.

(** [finishSpin] reports slice [floor((270 - rotation) / anglePer) mod N]. *)
Lemma finish_index_mod (R : Q) (N : nat) :
  (1 <= N)%nat ->
  finish_index R N = (Qfloor ((270 - R) / (360 / Qnat N)) mod Z.of_nat N)%Z.
Proof.
  intros HN. pose proof (Qnat_pos N HN) as Hq.
  set (t1 := Qtrunc (R / 360)).
  set (j := js_rem R 360).
  assert (Ej : j == R - 360 * inject_Z t1) by reflexivity.
  pose proof (js_rem_bound R) as Bj. fold j in Bj.
  set (u := 360 + pointerAngle - j).
  assert (Hu : 0 <= u) by (unfold u, pointerAngle; lra).
  set (t2 := Qtrunc (u / 360)).
  set (th := js_rem u 360).
  assert (Eth : th == u - 360 * inject_Z t2) by reflexivity.
  pose proof (js_rem_nonneg u Hu) as (Bth0 & Bth1 & _). fold th in Bth0, Bth1.
  set (AA := 360 / Qnat N).
  assert (HA : 0 < AA) by (unfold AA; apply Qlt_shift_div_l; lra).
  set (K := (1 + t1 - t2)%Z).
  assert (Ez : th / AA == (270 - R) / AA + inject_Z (Z.of_nat N * K)).
  { rewrite Eth. unfold u, pointerAngle. rewrite Ej. unfold K.
    rewrite inject_Z_mult, !inject_Z_sub, inject_Z_plus. change (inject_Z 1) with 1.
    change (inject_Z (Z.of_nat N)) with (Qnat N). unfold AA. field. lra. }
  assert (B0 : (0 <= Qfloor (th / AA))%Z).
  { apply Qfloor_nonneg. apply Qle_shift_div_l; lra. }
  assert (B1 : (Qfloor (th / AA) < Z.of_nat N)%Z).
  { apply Qfloor_lt_nat. apply Qlt_shift_div_r; [exact HA |].
    change (inject_Z (Z.of_nat N)) with (Qnat N). unfold AA.
    assert (E : Qnat N * (360 / Qnat N) == 360) by (field; lra). lra. }
  change (finish_index R N) with (Qfloor (th / AA)).
  rewrite (Qfloor_comp _ _ Ez), Qfloor_add_Z in *.
  apply (Z.mod_unique _ _ (- K)); [left; lia | ring].
Qed.

Lemma finish_index_endRotation (r0 : Q) (N : nat) (t fr : Z) :
  (1 <= N)%nat ->
  finish_index (endRotation r0 N t fr) N
  = ((finish_index (endRotation r0 N 0 0) N - t) mod Z.of_nat N)%Z.
Proof.
  intros HN. pose proof (Qnat_pos N HN) as Hq.
  rewrite !finish_index_mod by exact HN.
  assert (E : (270 - endRotation r0 N t fr) / (360 / Qnat N)
              == (270 - endRotation r0 N 0 0) / (360 / Qnat N) + inject_Z (- t - Z.of_nat N * fr)).
  { unfold endRotation, finalRotation, targetMidAngle, anglePer.
    rewrite !inject_Z_sub, inject_Z_opp, inject_Z_mult.
    change (inject_Z (Z.of_nat N)) with (Qnat N). change (inject_Z 0) with 0. field. lra. }
  rewrite (Qfloor_comp _ _ E), Qfloor_add_Z, Zminus_mod_idemp_l.
  replace (Qfloor ((270 - endRotation r0 N 0 0) / (360 / Qnat N)) + (- t - Z.of_nat N * fr))%Z
    with (Qfloor ((270 - endRotation r0 N 0 0) / (360 / Qnat N)) - t + (- fr) * Z.of_nat N)%Z by ring.
  apply Z.mod_add. lia.
Qed.

Lemma mod_sub_swap (c x k n : Z) :
  (0 < n)%Z -> (0 <= x < n)%Z -> (0 <= k < n)%Z ->
  ((c - x) mod n = k <-> (c - k) mod n = x)%Z.
Proof.
  intros Hn Hx Hk. split; intros H.
  - pose proof (Z.div_mod (c - x) n ltac:(lia)) as D. rewrite H in D.
    symmetry. apply (Z.mod_unique _ _ ((c - x) / n)); [left; lia | lia].
  - pose proof (Z.div_mod (c - k) n ltac:(lia)) as D. rewrite H in D.
    symmetry. apply (Z.mod_unique _ _ ((c - k) / n)); [left; lia | lia].
Qed.

(** Every spin run to its end, from any rotation the wheel has stopped at,
    reports slice [(c - targetIndex) mod N], where [c] depends only on the
    starting rotation and [N]. Each slice [k] is thus reported for exactly
    one [targetIndex], i.e. exactly when [Math.random() * N] (the first
    random value of the spin) lies in [[m, m + 1)] for
    [m = (c - k) mod N]: every name has the same chance on every spin. *)
Theorem spin_winner_permutation (st : state) (rnd1 rnd2 rnd3 now now' : Q) :
  reachable st -> spinning st = false ->
  0 <= rnd1 < 1 -> 0 <= rnd2 < 1 -> 0 <= rnd3 < 1 -> now + 5400 <= now' ->
  let N := List.length (names st) in
  let st' := animate (spin st rnd1 rnd2 rnd3 now) now' in
  let c := finish_index (endRotation (rotation st) N 0 0) N in
  finish_index (rotation st') N = ((c - Qfloor (rnd1 * Qnat N)) mod Z.of_nat N)%Z /\
  (forall k, (0 <= k < Z.of_nat N)%Z ->
     (finish_index (rotation st') N = k <->
      inject_Z ((c - k) mod Z.of_nat N) <= rnd1 * Qnat N /\
      rnd1 * Qnat N < inject_Z ((c - k) mod Z.of_nat N) + 1)).
Proof.
  intros R Hs R1 R2 R3 Hnow N st' c.
  destruct (spin_run_to_end st rnd1 rnd2 rnd3 now now' R Hs R1 R2 R3 Hnow)
    as (HN & Ti & _ & _ & _ & Fi & _). fold N st' in HN, Ti, Fi.
  set (ti := Qfloor (rnd1 * Qnat N)) in *.
  assert (Main : finish_index (rotation st') N = ((c - ti) mod Z.of_nat N)%Z).
  { rewrite Fi. exact (finish_index_endRotation (rotation st) N ti _ HN). }
  split; [exact Main |].
  intros k Hk. rewrite Main, (mod_sub_swap c ti k (Z.of_nat N) ltac:(lia) Ti Hk).
  pose proof (Qfloor_le (rnd1 * Qnat N)) as L1.
  pose proof (Qlt_floor (rnd1 * Qnat N)) as L2. fold ti in L1, L2.
  rewrite inject_Z_plus in L2. change (inject_Z 1) with 1 in L2.
  split.
  - intros <-. split; lra.
  - intros [K1 K2]. symmetry. apply Qfloor_unique; assumption.
Qed.

Lemma spin_winner_permutation_witness :
  reachable (animate (spin init 0 0 0 0) 5400) /\
  spinning (animate (spin init 0 0 0 0) 5400) = false /\
  finish_index (rotation (animate (spin (animate (spin init 0 0 0 0) 5400) (1#2) 0 0 5400) 10800)) 8
  = ((finish_index (endRotation (rotation (animate (spin init 0 0 0 0) 5400)) 8 0 0) 8
      - Qfloor ((1#2) * Qnat 8)) mod 8)%Z.
Proof.
  assert (R0 : reachable (spin init 0 0 0 0)) by (apply reach_spin; [apply reach_init | lra ..]).
  assert (R : reachable (animate (spin init 0 0 0 0) 5400)) by (apply reach_frame; exact R0).
  assert (S : spinning (animate (spin init 0 0 0 0) 5400) = false) by (vm_compute; reflexivity).
  split; [exact R | split; [exact S |]].
  exact (proj1 (spin_winner_permutation _ (1#2) 0 0 5400 10800 R S
                  ltac:(lra) ltac:(lra) ltac:(lra) ltac:(lra))).
Defined.

(** ** Where the pointer stops within a slice *)

Lemma pointer_shift_aux (st : state) (rnd1 rnd2 rnd3 now now' : Q) :
  reachable st -> spinning st = false ->
  0 <= rnd1 < 1 -> 0 <= rnd2 < 1 -> 0 <= rnd3 < 1 -> now + 5400 <= now' ->
  let N := List.length (names st) in
  let st' := animate (spin st rnd1 rnd2 rnd3 now) now' in
  spinning st' = false /\ names st' = names st /\
  exists z : Z, (270 - rotation st') / anglePer N
                == (270 - rotation st) / anglePer N + Qnat N * (1#4) - (1#2) + inject_Z z.
Proof.
  intros R Hs R1 R2 R3 Hnow N st'.
  destruct (spin_run_to_end st rnd1 rnd2 rnd3 now now' R Hs R1 R2 R3 Hnow)
    as (HN & _ & _ & Er & Sp & _). fold N st' in HN, Er, Sp.
  pose proof (Qnat_pos N HN) as Hq.
  split; [exact Sp | split].
  - unfold st'. now rewrite names_unchanged_by_animate, names_unchanged_by_spin.
  - exists (- Qfloor (rnd1 * Qnat N) - Z.of_nat N * (4 + Qfloor (rnd2 * 3)))%Z.
    rewrite Er. unfold endRotation, finalRotation, targetMidAngle, anglePer.
    rewrite inject_Z_sub, inject_Z_opp, inject_Z_mult.
    change (inject_Z (Z.of_nat N)) with (Qnat N). field. lra.
Qed.

(** Counted in slices from the start angle of slice 0, the pointer is at
    [(270 - rotation) / anglePer] on the wheel, slice [k] covering
    [[k, k + 1)]. A spin run to its end moves this position by
    [N/4 - 1/2] plus a whole number of slices, whatever the random values. *)
Theorem spin_pointer_shift (st : state) (rnd1 rnd2 rnd3 now now' : Q) :
  reachable st -> spinning st = false ->
  0 <= rnd1 < 1 -> 0 <= rnd2 < 1 -> 0 <= rnd3 < 1 -> now + 5400 <= now' ->
  let N := List.length (names st) in
  let st' := animate (spin st rnd1 rnd2 rnd3 now) now' in
  exists z : Z, (270 - rotation st') / anglePer N
                == (270 - rotation st) / anglePer N + Qnat N * (1#4) - (1#2) + inject_Z z.
Proof.
  intros R Hs R1 R2 R3 Hnow N st'.
  exact (proj2 (proj2 (pointer_shift_aux st rnd1 rnd2 rnd3 now now' R Hs R1 R2 R3 Hnow))).
Qed.

Lemma spin_pointer_shift_witness :
  reachable init /\ spinning init = false /\
  exists z : Z, (270 - rotation (animate (spin init 0 0 0 0) 5400)) / anglePer 8
                == (270 - rotation init) / anglePer 8 + Qnat 8 * (1#4) - (1#2) + inject_Z z.
Proof.
  split; [exact reach_init | split; [reflexivity |]].
  exact (spin_pointer_shift init 0 0 0 0 5400 reach_init eq_refl
           ltac:(lra) ltac:(lra) ltac:(lra) ltac:(lra)).
Defined.

(** When the number of names is a multiple of 4 (the 8 default names, for
    instance), a wheel standing at a whole number of turns (at load, or after
    an update) has the pointer exactly on the separator line between two
    slices; after one full spin it points at the middle of a slice, and after
    the next one it is on a separator line again, where the slice reported
    is decided by the floor of the exact boundary value. *)
Theorem pointer_on_separator_every_other_spin (st : state) (m : Z)
  (rnd1 rnd2 rnd3 now1 now1' qnd1 qnd2 qnd3 now2 now2' : Q) :
  reachable st -> spinning st = false -> rotation st == 360 * inject_Z m ->
  (List.length (names st) mod 4 = 0)%nat ->
  0 <= rnd1 < 1 -> 0 <= rnd2 < 1 -> 0 <= rnd3 < 1 -> now1 + 5400 <= now1' ->
  0 <= qnd1 < 1 -> 0 <= qnd2 < 1 -> 0 <= qnd3 < 1 -> now2 + 5400 <= now2' ->
  let N := List.length (names st) in
  let st1 := animate (spin st rnd1 rnd2 rnd3 now1) now1' in
  let st2 := animate (spin st1 qnd1 qnd2 qnd3 now2) now2' in
  (exists z : Z, 270 - rotation st == inject_Z z * anglePer N) /\
  (exists z : Z, 270 - rotation st1 == (inject_Z z + (1#2)) * anglePer N) /\
  (exists z : Z, 270 - rotation st2 == inject_Z z * anglePer N).
Proof.
  intros R Hs Hr H4 R1 R2 R3 T1 Q1 Q2 Q3 T2 N st1 st2.
  destruct (reachable_Inv st R) as (Hn & _).
  assert (HN : (1 <= N)%nat) by (unfold N; destruct (names st); [contradiction | simpl; lia]).
  pose proof (Qnat_pos N HN) as Hq.
  assert (Ha : 0 < anglePer N) by (unfold anglePer; apply Qlt_shift_div_l; lra).
  pose proof (Nat.div_mod_eq N 4) as Ed. fold N in H4. rewrite H4, Nat.add_0_r in Ed.
  set (M := (N / 4)%nat) in Ed.
  assert (QN : Qnat N == 4 * Qnat M).
  { unfold Qnat. rewrite Ed, Nat2Z.inj_mul, inject_Z_mult. reflexivity. }
  destruct (pointer_shift_aux st rnd1 rnd2 rnd3 now1 now1' R Hs R1 R2 R3 T1)
    as (S1 & N1 & z1 & E1). fold N st1 in S1, N1, E1.
  assert (R1' : reachable st1).
  { apply reach_frame, reach_spin; [exact R | lra ..]. }
  destruct (pointer_shift_aux st1 qnd1 qnd2 qnd3 now2 now2' R1' S1 Q1 Q2 Q3 T2)
    as (_ & _ & z2 & E2). rewrite N1 in E2. fold N st2 in E2.
  assert (E0 : (270 - rotation st) / anglePer N == inject_Z (3 * Z.of_nat M - Z.of_nat N * m)).
  { rewrite Hr. unfold anglePer. rewrite inject_Z_sub, !inject_Z_mult.
    change (inject_Z (Z.of_nat N)) with (Qnat N). change (inject_Z (Z.of_nat M)) with (Qnat M).
    rewrite QN. field. rewrite QN in Hq. lra. }
  assert (Back : forall r q, (270 - r) / anglePer N == q -> 270 - r == q * anglePer N).
  { intros r q E. rewrite <- E. field. lra. }
  split; [| split].
  - exists (3 * Z.of_nat M - Z.of_nat N * m)%Z. apply Back, E0.
  - exists (3 * Z.of_nat M - Z.of_nat N * m + Z.of_nat M - 1 + z1)%Z. apply Back.
    rewrite E1, E0, QN. repeat rewrite ?inject_Z_plus, ?inject_Z_sub, ?inject_Z_mult.
    change (inject_Z (Z.of_nat M)) with (Qnat M). change (inject_Z 1) with 1. ring.
  - exists (3 * Z.of_nat M - Z.of_nat N * m + 2 * Z.of_nat M - 1 + z1 + z2)%Z. apply Back.
    rewrite E2, E1, E0, QN. repeat rewrite ?inject_Z_plus, ?inject_Z_sub, ?inject_Z_mult.
    change (inject_Z (Z.of_nat M)) with (Qnat M). change (inject_Z 1) with 1. ring.
Qed.

Lemma pointer_on_separator_every_other_spin_witness :
  reachable init /\ rotation init == 360 * inject_Z 0 /\ (List.length (names init) mod 4 = 0)%nat /\
  exists z : Z, 270 - rotation (animate (spin (animate (spin init 0 0 0 0) 5400) 0 0 0 5400) 10800)
                == inject_Z z * anglePer 8.
Proof.
  split; [exact reach_init | split; [reflexivity | split; [reflexivity |]]].
  exact (proj2 (proj2 (pointer_on_separator_every_other_spin init 0 0 0 0 0 5400 0 0 0 5400 10800
           reach_init eq_refl (Qeq_refl _) eq_refl
           ltac:(lra) ltac:(lra) ltac:(lra) ltac:(lra) ltac:(lra) ltac:(lra) ltac:(lra) ltac:(lra)))).
Defined.
